(** * A shallow embedding of the Tetris state engine

    The engine is the pure part of the game: the random generator, the grid
    helpers, line clearing and scoring ([util.ts]), the catalog of pieces
    ([types.ts]) and the reducer with its six actions and the collision
    detector ([state.ts]).

    Conventions of the embedding.
    - JavaScript numbers that the engine only ever uses as integers are [Z]:
      coordinates, counters and scores stay far below [2^53], where binary64
      arithmetic on integers is exact. The random generator is the exception:
      its numbers are rationals [Q] and every operation is rounded to
      binary64 by [round64].
    - [arr[i]] is [lookupZ arr i]: [None] stands for [undefined].
    - A function that can throw a [TypeError] (property access on
      [undefined]) returns [option]; [None] is the throw.
    - [Date.now()] is an explicit argument named [now].
    - The recursion of [Drop.apply] is bounded by a fuel argument; [None]
      there also covers the exhausted budget. *)

From Stdlib Require Import String ZArith List Bool Lia.
From Stdlib Require Import QArith Qround Qpower Lqa SpecFloat.
Import ListNotations.
Open Scope Z_scope.

(** ** JavaScript arrays and values *)

(** [arr[i]] for an integer index: [undefined] outside [0 .. length-1]. *)
Definition lookupZ {A : Type} (l : list A) (i : Z) : option A :=
  if i <? 0 then None else nth_error l (Z.to_nat i).

(** [arr.some((a, i) => f a i)], the indices starting at [i]. The callback may
    throw; [some] stops at the first truthy answer, so a later throw is not
    reached. *)
Fixpoint some_from {A : Type} (f : A -> Z -> option bool) (i : Z) (l : list A)
  : option bool :=
  match l with
  | [] => Some false
  | a :: l' =>
      match f a i with
      | None => None
      | Some true => Some true
      | Some false => some_from f (i + 1) l'
      end
  end.

Definition some_i {A : Type} (f : A -> Z -> option bool) (l : list A) : option bool :=
  some_from f 0 l.

(** [arr.map((a, i) => f a i)] with a callback that may throw. *)
Fixpoint map_from {A B : Type} (f : A -> Z -> option B) (i : Z) (l : list A)
  : option (list B) :=
  match l with
  | [] => Some []
  | a :: l' =>
      match f a i with
      | None => None
      | Some b =>
          match map_from f (i + 1) l' with
          | None => None
          | Some bs => Some (b :: bs)
          end
      end
  end.

Definition map_i {A B : Type} (f : A -> Z -> option B) (l : list A) : option (list B) :=
  map_from f 0 l.

(** A JavaScript number that may have become [NaN] (the score, after a lookup
    outside the scoring table). *)
Inductive number : Type :=
  | Num (z : Z)
  | NaN.

Definition num_add (a b : number) : number :=
  match a, b with
  | Num x, Num y => Num (x + y)
  | _, _ => NaN
  end.

(** [a > b]: false as soon as one side is [NaN]. *)
Definition num_gtb (a : number) (b : Z) : bool :=
  match a with
  | Num x => x >? b
  | NaN => false
  end.

(** ** types.ts *)

Module Constants.
Definition TICK_RATE_MS : Z := 500.
Definition GRID_WIDTH : Z := 10.
Definition GRID_HEIGHT : Z := 20.
Definition START_X : Z := 4.
Definition START_Y : Z := 0.
Definition MULTIPLIER : Z := 10.
End Constants.

Module Viewport.
Definition CANVAS_WIDTH : Z := 200.
Definition CANVAS_HEIGHT : Z := 400.
Definition PREVIEW_WIDTH : Z := 160.
Definition PREVIEW_HEIGHT : Z := 80.
End Viewport.

Module Block.
Definition WIDTH : Z := Viewport.CANVAS_WIDTH / Constants.GRID_WIDTH.
Definition HEIGHT : Z := Viewport.CANVAS_HEIGHT / Constants.GRID_HEIGHT.
End Block.

Definition TetrominoShape : Type := list (list Z).

(** [string | null] *)
Definition GridCell : Type := option string.

Definition Grid : Type := list (list GridCell).

Record Position : Type := mkPosition { x : Z; y : Z }.

Record Tetromino : Type := mkTetromino {
  shapes : list TetrominoShape;
  position : Position;
  color : string;
  rotation : Z
}.

Definition startPosition : Position :=
  mkPosition Constants.START_X Constants.START_Y.

Definition O_TETROMINO : Tetromino :=
  mkTetromino
    [ [ [1; 1];
        [1; 1] ] ]
    startPosition "yellow"%string 0.

Definition T_TETROMINO : Tetromino :=
  mkTetromino
    [ [ [0; 1; 0];
        [1; 1; 1];
        [0; 0; 0] ];
      [ [0; 1; 0];
        [0; 1; 1];
        [0; 1; 0] ];
      [ [0; 0; 0];
        [1; 1; 1];
        [0; 1; 0] ];
      [ [0; 1; 0];
        [1; 1; 0];
        [0; 1; 0] ] ]
    startPosition "purple"%string 0.

Definition I_TETROMINO : Tetromino :=
  mkTetromino
    [ [ [1; 1; 1; 1];
        [0; 0; 0; 0];
        [0; 0; 0; 0];
        [0; 0; 0; 0] ];
      [ [0; 0; 0; 1];
        [0; 0; 0; 1];
        [0; 0; 0; 1];
        [0; 0; 0; 1] ];
      [ [0; 0; 0; 0];
        [0; 0; 0; 0];
        [0; 0; 0; 0];
        [1; 1; 1; 1] ];
      [ [1; 0; 0; 0];
        [1; 0; 0; 0];
        [1; 0; 0; 0];
        [1; 0; 0; 0] ] ]
    startPosition "cyan"%string 0.

Definition S_TETROMINO : Tetromino :=
  mkTetromino
    [ [ [0; 1; 1];
        [1; 1; 0];
        [0; 0; 0] ];
      [ [0; 1; 0];
        [0; 1; 1];
        [0; 0; 1] ];
      [ [0; 0; 0];
        [0; 1; 1];
        [1; 1; 0] ];
      [ [1; 0; 0];
        [1; 1; 0];
        [0; 1; 0] ] ]
    startPosition "green"%string 0.

Definition Z_TETROMINO : Tetromino :=
  mkTetromino
    [ [ [1; 1; 0];
        [0; 1; 1];
        [0; 0; 0] ];
      [ [0; 0; 1];
        [0; 1; 1];
        [0; 1; 0] ];
      [ [0; 0; 0];
        [1; 1; 0];
        [0; 1; 1] ];
      [ [0; 1; 0];
        [1; 1; 0];
        [1; 0; 0] ] ]
    startPosition "red"%string 0.

Definition L_TETROMINO : Tetromino :=
  mkTetromino
    [ [ [1; 0; 0];
        [1; 1; 1];
        [0; 0; 0] ];
      [ [0; 1; 1];
        [0; 1; 0];
        [0; 1; 0] ];
      [ [0; 0; 0];
        [1; 1; 1];
        [0; 0; 1] ];
      [ [0; 1; 0];
        [0; 1; 0];
        [1; 1; 0] ] ]
    startPosition "orange"%string 0.

Definition J_TETROMINO : Tetromino :=
  mkTetromino
    [ [ [0; 0; 1];
        [1; 1; 1];
        [0; 0; 0] ];
      [ [0; 1; 0];
        [0; 1; 0];
        [0; 1; 1] ];
      [ [0; 0; 0];
        [1; 1; 1];
        [1; 0; 0] ];
      [ [1; 1; 0];
        [0; 1; 0];
        [0; 1; 0] ] ]
    startPosition "blue"%string 0.

(** ** util.ts *)

Definition Tetrominos : list Tetromino :=
  [O_TETROMINO; S_TETROMINO; L_TETROMINO; Z_TETROMINO;
   J_TETROMINO; I_TETROMINO; T_TETROMINO].

(** ** Binary64 arithmetic

    The generator multiplies the clock reading by [a] and divides the hash by
    [m - 1]: its numbers leave the integers that a JavaScript number holds
    exactly, so each of its operations is rounded. A finite binary64 value is
    a rational number, and an arithmetic operation of the code is the exact
    operation over [Q] followed by [round64]: rounding to the nearest value
    with a significand of 53 bits, ties to the even significand, with gradual
    underflow (below [2^-1022] the step is [2^-1074]). Overflow to [Infinity],
    from [2^1024] on, is left out: [round64] stands for the code as long as no
    intermediate value is that large. *)

Definition pow2 (k : Z) : Q := Qpower 2 k.

(** The nearest integer, a tie going to the even neighbour. *)
Definition roundHalfEven (y : Q) : Z :=
  let f := Qfloor y in
  match (y - inject_Z f ?= 1 # 2)%Q with
  | Lt => f
  | Gt => f + 1
  | Eq => if Z.even f then f else f + 1
  end.

(** The exponent [e] of a positive number, [2^e <= x < 2^(e+1)], and not
    below the smallest exponent [-1022] of a normal binary64 value. *)
Definition binade (x : Q) : Z :=
  Z.max (- 1022) (Z.log2 (Qfloor (x * pow2 1074)) - 1074).

(** Rounding of a positive number: the significand [x / 2^(e-52)] is rounded
    to an integer. *)
Definition roundPositive (x : Q) : Q :=
  let u := pow2 (binade x - 52) in
  (inject_Z (roundHalfEven (x / u)) * u)%Q.

Definition round64 (x : Q) : Q :=
  match (x ?= 0)%Q with
  | Eq => 0%Q
  | Gt => roundPositive x
  | Lt => (- roundPositive (- x))%Q
  end.

(** [x % m] on numbers: [x - m * trunc(x / m)], which takes the sign of the
    dividend. The remainder of two binary64 values is a binary64 value, so it
    is not rounded. *)
Definition truncate (q : Q) : Z := if Qle_bool 0 q then Qfloor q else Qceiling q.

Definition jsRem (x m : Q) : Q := (x - m * inject_Z (truncate (x / m)))%Q.

Module RNG.
Definition m : Q := inject_Z 2147483648. (* 0x80000000 = 2^31 *)
Definition a : Q := inject_Z 1103515245.
Definition c : Q := inject_Z 12345.

(** [(a * seed + c) % m]: the product and the sum are rounded. *)
Definition hash (seed : Q) : Q := jsRem (round64 (round64 (a * seed) + c)) m.

(** The body of [randomInt] once the hash is known:
    [scale = hash / (m - 1)], then [Math.floor(min + scale * (max - min + 1))],
    each operation rounded in the order in which the code evaluates it. *)
Definition scaleHash (hash : Q) (min max : Z) : Z :=
  let scale := round64 (hash / round64 (m - 1)) in
  Qfloor (round64 (inject_Z min
                   + round64 (scale * round64 (round64 (inject_Z max - inject_Z min) + 1)))).

(** [randomInt(min, max)] for integers [min] and [max] (binary64 values
    themselves, as every integer up to [2^53] in magnitude is), the clock
    reading [now] being [Date.now()], an integer number of milliseconds. *)
Definition randomInt (now min max : Z) : Z :=
  scaleHash (hash (inject_Z now)) min max.
End RNG.

Arguments round64 : simpl never.
Arguments jsRem : simpl never.
Arguments RNG.hash : simpl never.
Arguments RNG.scaleHash : simpl never.
Arguments RNG.randomInt : simpl never.

(** The generator once more, over the Standard Library's specification of
    IEEE 754 binary64 ([SpecFloat], precision 53 and maximal exponent 1024),
    to compare [round64] with. *)
Module SpecFloatRNG.
Definition ofZ (z : Z) : spec_float := binary_normalize 53 1024 z 0 false.

Definition toQ (f : spec_float) : Q :=
  match f with
  | S754_finite s mant e => ((if s then - 1 else 1) * inject_Z (Z.pos mant) * pow2 e)%Q
  | _ => 0%Q
  end.

Definition hash (seed : Z) : spec_float :=
  let sum := SFadd 53 1024 (SFmul 53 1024 (ofZ 1103515245) (ofZ seed)) (ofZ 12345) in
  ofZ (Z.rem (Qfloor (toQ sum)) 2147483648).

Definition randomInt (now min max : Z) : Z :=
  let scale := SFdiv 53 1024 (hash now) (SFsub 53 1024 (ofZ 2147483648) (ofZ 1)) in
  let width := SFadd 53 1024 (SFsub 53 1024 (ofZ max) (ofZ min)) (ofZ 1) in
  Qfloor (toQ (SFadd 53 1024 (ofZ min) (SFmul 53 1024 scale width))).

(** Clock readings with [min] and [max]. *)
Definition samples : list (Z * Z * Z) :=
  [ (0, 0, 6); (1, 0, 6); (8162278, 0, 6); (8162279, 0, 6); (230538014, 0, 6);
    (1700000000000, 0, 6); (1762164000123, 0, 6); (9007199254740991, 0, 6);
    (1700000000000, - 2097151, 2097151); (1762164000123, - 2097151, 2097151);
    (1762164000123, 4194304, 4194305);
    (1700000000000, 4503599627370496, 4503599627370496) ].

Definition agree (sample : Z * Z * Z) : bool :=
  let '(now, min, max) := sample in
  Qeq_bool (RNG.hash (inject_Z now)) (toQ (hash now))
  && (RNG.randomInt now min max =? randomInt now min max).
End SpecFloatRNG.

Inductive Direction : Type := LEFT | RIGHT | DOWN | ROTATE.

Definition initialiseGrid (width height : Z) : Grid :=
  let createRow (width : Z) : list GridCell := repeat None (Z.to_nat width) in
  let createGrid (width height : Z) : Grid :=
    map (fun _ : GridCell => createRow width) (repeat None (Z.to_nat height)) in
  createGrid width height.

(** The callback of the inner [row.map] of [placeTetrominoOnGrid]. The
    conjunction is evaluated left to right: [shapes[rotation].length] is read
    only once [relativeY >= 0] holds, and throws when [shapes[rotation]] is
    [undefined]. *)
Definition placeCell (tetromino : Tetromino) (rowIndex : Z)
    (cell : GridCell) (colIndex : Z) : option GridCell :=
  let relativeY := rowIndex - y (position tetromino) in
  let relativeX := colIndex - x (position tetromino) in
  if relativeY >=? 0 then
    match lookupZ (shapes tetromino) (rotation tetromino) with
    | None => None
    | Some shape =>
        if relativeY <? Z.of_nat (length shape) then
          if relativeX >=? 0 then
            match lookupZ shape 0 with
            | None => None
            | Some row0 =>
                if relativeX <? Z.of_nat (length row0) then
                  match lookupZ shape relativeY with
                  | None => None
                  | Some shapeRow =>
                      match lookupZ shapeRow relativeX with
                      | Some v => if v =? 1 then Some (Some (color tetromino)) else Some cell
                      | None => Some cell
                      end
                  end
                else Some cell
            end
          else Some cell
        else Some cell
    end
  else Some cell.

Definition placeTetrominoOnGrid (grid : Grid) (tetromino : Tetromino) : option Grid :=
  map_i (fun row rowIndex => map_i (placeCell tetromino rowIndex) row) grid.

(** [row.every(cell => cell !== null)] *)
Definition isFull (row : list GridCell) : bool :=
  forallb (fun cell : GridCell => match cell with Some _ => true | None => false end) row.

(** [lineClear] returns the pair [(newGrid, rowsCleared)]; reading
    [grid[0].length] throws on a grid without rows. *)
Definition lineClear (grid : Grid) : option (Grid * Z) :=
  let newGrid := filter (fun row => negb (isFull row)) grid in
  match lookupZ grid 0 with
  | None => None
  | Some row0 =>
      let newRow : list GridCell := repeat None (length row0) in
      let newRows : Grid := repeat newRow (length grid - length newGrid) in
      Some (newRows ++ newGrid, Z.of_nat (length grid) - Z.of_nat (length newGrid))
  end.

Definition topOut (grid : Grid) : option bool :=
  match lookupZ grid 0 with
  | None => None
  | Some row0 =>
      Some (existsb (fun cell : GridCell => match cell with Some _ => true | None => false end) row0)
  end.

Definition scores : list Z := [40; 100; 300; 1200].

(** [(level + 1) * undefined] is [NaN]. *)
Definition calculateScore (level rowsCleared : Z) : number :=
  if rowsCleared =? 0 then Num rowsCleared
  else
    match lookupZ scores (rowsCleared - 1) with
    | Some points => Num ((level + 1) * points)
    | None => NaN
    end.

(** ** state.ts *)

(** Sequencing of computations that may throw. *)
Notation "v <- e ;; k" :=
  (match e with
   | Some v => k
   | None => None
   end)
  (at level 61, e at next level, right associativity, only parsing).

Notation "' pat <- e ;; k" :=
  (match e with
   | Some pat => k
   | None => None
   end)
  (at level 61, pat pattern, e at next level, right associativity, only parsing).

(** [currentTetromino] and [nextTetromino] are drawn by [Tetrominos[...]],
    which is [undefined] for an index outside the catalog: [None]. For
    [heldElement], [None] is [null] (or that same [undefined]); the engine only
    tests it for truthiness. *)
Record State : Type := mkState {
  currentTetromino : option Tetromino;
  nextTetromino : option Tetromino;
  heldElement : option Tetromino;
  grid : Grid;
  score : number;
  level : Z;
  highScore : Z;
  gameEnd : bool;
  speedMultiplier : Z;
  speedCount : Z;
  rowsCleared : Z;
  usedHold : bool
}.

(** Truthiness of what [state.grid[r][c]] evaluates to: [undefined], [null]
    and the empty string are falsy. *)
Definition truthyCell (v : option GridCell) : bool :=
  match v with
  | Some (Some tag) => negb (String.eqb tag EmptyString)
  | _ => false
  end.

(** [state.grid[r][c]], coerced to a boolean by [some]; [state.grid[r]] being
    [undefined] makes the second index throw. *)
Definition gridAt (g : Grid) (r c : Z) : option bool :=
  gridRow <- lookupZ g r ;;
  Some (truthyCell (lookupZ gridRow c)).

Definition collisionDetection (state : State) (direction : Direction) : option bool :=
  cur <- currentTetromino state ;;
  let currentRotation := rotation cur in
  tetrominoShape <- lookupZ (shapes cur) currentRotation ;;
  let tetrominoPosition := position cur in
  let posX := x tetrominoPosition in
  let posY := y tetrominoPosition in
  match direction with
  | DOWN =>
      some_i (fun row y =>
        some_i (fun cell x =>
          if negb (cell =? 0) then
            let newY := posY + y + 1 in
            if newY * Block.HEIGHT >=? Viewport.CANVAS_HEIGHT then Some true
            else gridAt (grid state) newY (posX + x)
          else Some false) row) tetrominoShape
  | LEFT =>
      some_i (fun row y =>
        some_i (fun cell x =>
          if negb (cell =? 0) then
            let newX := posX + x - 1 in
            if newX <? 0 then Some true
            else gridAt (grid state) (posY + y) newX
          else Some false) row) tetrominoShape
  | RIGHT =>
      some_i (fun row y =>
        some_i (fun cell x =>
          if negb (cell =? 0) then
            let newX := posX + x + 1 in
            if newX >=? Viewport.CANVAS_WIDTH / Block.WIDTH then Some true
            else gridAt (grid state) (posY + y) newX
          else Some false) row) tetrominoShape
  | ROTATE =>
      some_i (fun row y =>
        some_i (fun cell x =>
          if negb (cell =? 0) then
            let newY := posY + y in
            let newX := posX + x in
            if newY <? 0 then Some true
            else if newY >=? Viewport.CANVAS_HEIGHT / Block.HEIGHT then Some true
            else if newX <? 0 then Some true
            else if newX >=? Viewport.CANVAS_WIDTH / Block.WIDTH then Some true
            else gridAt (grid state) newY newX
          else Some false) row) tetrominoShape
  end.

(** [moveTetrominoDown] (util.ts): lock the piece on a DOWN collision,
    otherwise move it one row down. *)
Definition moveTetrominoDown (now : Z) (state : State) : option State :=
  collides <- collisionDetection state DOWN ;;
  cur <- currentTetromino state ;;
  if collides then
    placed <- placeTetrominoOnGrid (grid state) cur ;;
    '(newGrid, cleared) <- lineClear placed ;;
    let newRowsCleared := rowsCleared state + cleared in
    let newLevel := 1 + newRowsCleared / 3 in
    top <- topOut newGrid ;;
    Some {|
      currentTetromino := nextTetromino state;
      nextTetromino :=
        lookupZ Tetrominos (RNG.randomInt now 0 (Z.of_nat (length Tetrominos) - 1));
      heldElement := heldElement state;
      grid := newGrid;
      score := num_add (score state) (calculateScore (level state) cleared);
      level := newLevel;
      highScore := highScore state;
      gameEnd := top;
      speedMultiplier := Constants.MULTIPLIER - newLevel;
      speedCount := 0;
      rowsCleared := newRowsCleared;
      usedHold := false
    |}
  else
    Some {|
      currentTetromino :=
        Some {|
          shapes := shapes cur;
          position := {| x := x (position cur); y := y (position cur) + 1 |};
          color := color cur;
          rotation := rotation cur
        |};
      nextTetromino := nextTetromino state;
      heldElement := heldElement state;
      grid := grid state;
      score := score state;
      level := level state;
      highScore := highScore state;
      gameEnd := gameEnd state;
      speedMultiplier := speedMultiplier state;
      speedCount := 0;
      rowsCleared := rowsCleared state;
      usedHold := usedHold state
    |}.

Inductive Action : Type :=
  | GameFlow
  | Down
  | Move (direction : Direction)
  | Rotate
  | Drop
  | Hold.

Section Reducer.

(** The two clock readings taken while the module is loaded, when
    [initialState] draws its current and next piece. *)
Variables bootNow1 bootNow2 : Z.

Definition initialState : State := {|
  currentTetromino :=
    lookupZ Tetrominos (RNG.randomInt bootNow1 0 (Z.of_nat (length Tetrominos) - 1));
  nextTetromino :=
    lookupZ Tetrominos (RNG.randomInt bootNow2 0 (Z.of_nat (length Tetrominos) - 1));
  heldElement := None;
  grid := initialiseGrid (Viewport.CANVAS_WIDTH / Block.WIDTH)
                         (Viewport.CANVAS_HEIGHT / Block.HEIGHT);
  score := Num 0;
  level := 1;
  highScore := 0;
  gameEnd := false;
  speedMultiplier := 10;
  speedCount := 0;
  rowsCleared := 0;
  usedHold := false
|}.

Definition GameFlow_apply (now : Z) (s : State) : option State :=
  if gameEnd s then
    Some {|
      currentTetromino := currentTetromino initialState;
      nextTetromino := nextTetromino initialState;
      heldElement := heldElement initialState;
      grid := grid initialState;
      score := score initialState;
      level := level initialState;
      highScore :=
        match score s with
        | Num points => if points >? highScore s then points else highScore s
        | NaN => highScore s
        end;
      gameEnd := gameEnd initialState;
      speedMultiplier := speedMultiplier initialState;
      speedCount := speedCount initialState;
      rowsCleared := rowsCleared initialState;
      usedHold := usedHold initialState
    |}
  else if speedCount s >=? speedMultiplier s then moveTetrominoDown now s
  else
    Some {|
      currentTetromino := currentTetromino s;
      nextTetromino := nextTetromino s;
      heldElement := heldElement s;
      grid := grid s;
      score := score s;
      level := level s;
      highScore := highScore s;
      gameEnd := gameEnd s;
      speedMultiplier := speedMultiplier s;
      speedCount := speedCount s + 1;
      rowsCleared := rowsCleared s;
      usedHold := usedHold s
    |}.

Definition Down_apply (now : Z) (s : State) : option State :=
  moveTetrominoDown now s.

(** [s] with another current piece. *)
Definition withCurrent (s : State) (t : Tetromino) : State := {|
  currentTetromino := Some t;
  nextTetromino := nextTetromino s;
  heldElement := heldElement s;
  grid := grid s;
  score := score s;
  level := level s;
  highScore := highScore s;
  gameEnd := gameEnd s;
  speedMultiplier := speedMultiplier s;
  speedCount := speedCount s;
  rowsCleared := rowsCleared s;
  usedHold := usedHold s
|}.

Definition Move_apply (direction : Direction) (s : State) : option State :=
  collides <- collisionDetection s direction ;;
  if collides then Some s
  else
    cur <- currentTetromino s ;;
    let newPosition := {|
      x := x (position cur) + (match direction with RIGHT => 1 | _ => -1 end);
      y := y (position cur)
    |} in
    Some (withCurrent s {|
      shapes := shapes cur;
      position := newPosition;
      color := color cur;
      rotation := rotation cur
    |}).

Definition Rotate_apply (s : State) : option State :=
  cur <- currentTetromino s ;;
  let currentRotation := rotation cur in
  let newRotation :=
    if currentRotation + 1 <? Z.of_nat (length (shapes cur))
    then currentRotation + 1 else 0 in
  let newState := withCurrent s {|
    shapes := shapes cur;
    position := position cur;
    color := color cur;
    rotation := newRotation
  |} in
  collides <- collisionDetection newState ROTATE ;;
  if negb collides then Some newState else Some s.

(** [Drop.apply] calls itself until a DOWN collision; [fuel] bounds the
    number of calls. *)
Fixpoint Drop_apply (fuel : nat) (now : Z) (s : State) : option State :=
  match fuel with
  | O => None
  | S fuel' =>
      collides <- collisionDetection s DOWN ;;
      if collides then moveTetrominoDown now s
      else
        s' <- moveTetrominoDown now s ;;
        Drop_apply fuel' now s'
  end.

Definition Hold_apply (now : Z) (s : State) : State :=
  if usedHold s then s
  else
    match heldElement s with
    | None => {|
        currentTetromino := nextTetromino s;
        nextTetromino :=
          lookupZ Tetrominos (RNG.randomInt now 0 (Z.of_nat (length Tetrominos) - 1));
        heldElement := currentTetromino s;
        grid := grid s;
        score := score s;
        level := level s;
        highScore := highScore s;
        gameEnd := gameEnd s;
        speedMultiplier := speedMultiplier s;
        speedCount := speedCount s;
        rowsCleared := rowsCleared s;
        usedHold := true
      |}
    | Some held => {|
        currentTetromino := Some held;
        nextTetromino := nextTetromino s;
        heldElement := currentTetromino s;
        grid := grid s;
        score := score s;
        level := level s;
        highScore := highScore s;
        gameEnd := gameEnd s;
        speedMultiplier := speedMultiplier s;
        speedCount := speedCount s;
        rowsCleared := rowsCleared s;
        usedHold := true
      |}
    end.

(** [reduceState s action = action.apply(s)]; [now] is the clock reading the
    action sees, [fuel] the recursion budget of a hard drop. *)
Definition reduceState (fuel : nat) (now : Z) (s : State) (action : Action)
  : option State :=
  match action with
  | GameFlow => GameFlow_apply now s
  | Down => Down_apply now s
  | Move direction => Move_apply direction s
  | Rotate => Rotate_apply s
  | Drop => Drop_apply fuel now s
  | Hold => Some (Hold_apply now s)
  end.

(** The states the driver can produce: [scan(reduceState, initialState)]
    over any finite sequence of actions and clock readings. *)
Inductive reachable : State -> Prop :=
  | reachable_init : reachable initialState
  | reachable_step (s s' : State) (action : Action) (now : Z) (fuel : nat) :
      reachable s ->
      reduceState fuel now s action = Some s' ->
      reachable s'.

(** An executable run of the reducer over a script of actions. *)
Fixpoint run (fuel : nat) (script : list (Action * Z)) (s : State) : option State :=
  match script with
  | [] => Some s
  | (action, now) :: rest =>
      s' <- reduceState fuel now s action ;;
      run fuel rest s'
  end.

End Reducer.

(** ** Vocabulary of the properties *)

(** A list with its indices, counted from [i]. *)
Fixpoint indexed_from {A : Type} (i : Z) (l : list A) : list (Z * A) :=
  match l with
  | [] => []
  | a :: l' => (i, a) :: indexed_from (i + 1) l'
  end.

(** The filled cells of a shape, as coordinates [(x, y)] relative to the
    anchor, in the order in which the nested [some] visits them. *)
Definition filledCells (shape : TetrominoShape) : list (Z * Z) :=
  flat_map (fun '(cy, row) =>
    flat_map (fun '(cx, cell) => if cell =? 0 then [] else [(cx, cy)])
             (indexed_from 0 row))
    (indexed_from 0 shape).

(** [some] over a plain list: stops at the first [true], throws where the
    callback throws first. *)
Fixpoint anyM {A : Type} (f : A -> option bool) (l : list A) : option bool :=
  match l with
  | [] => Some false
  | a :: l' =>
      match f a with
      | None => None
      | Some true => Some true
      | Some false => anyM f l'
      end
  end.

(** The shape a piece shows: [shapes[rotation]]. *)
Definition activeShape (t : Tetromino) : option TetrominoShape :=
  lookupZ (shapes t) (rotation t).

(** Grid coordinates of a filled cell of a piece anchored at [position t]. *)
Definition cellX (t : Tetromino) (cell : Z * Z) : Z := x (position t) + fst cell.
Definition cellY (t : Tetromino) (cell : Z * Z) : Z := y (position t) + snd cell.

(** The cell lies inside [0,10) x [0,20). *)
Definition insideGrid (t : Tetromino) (cell : Z * Z) : bool :=
  (0 <=? cellX t cell) && (cellX t cell <? 10) &&
  (0 <=? cellY t cell) && (cellY t cell <? 20).

(** The cell lies in rows [0,20). *)
Definition insideRows (t : Tetromino) (cell : Z * Z) : bool :=
  (0 <=? cellY t cell) && (cellY t cell <? 20).

(** The grid cell at column [c] of row [r] is occupied: it exists and is
    truthy, that is, it holds a colour tag (a non-empty string). *)
Definition occupiedAt (g : Grid) (c r : Z) : bool :=
  match lookupZ g r with
  | Some gridRow => truthyCell (lookupZ gridRow c)
  | None => false
  end.

(** Some filled cell of the piece, at its position, is outside the grid or on
    an occupied cell. *)
Definition blocked (g : Grid) (t : Tetromino) (shape : TetrominoShape) : bool :=
  existsb (fun cell => negb (insideGrid t cell) || occupiedAt g (cellX t cell) (cellY t cell))
          (filledCells shape).

(** What the callback of the nested [some] of [collisionDetection] answers
    on one filled cell of the active shape. *)
Definition cellCollides (g : Grid) (t : Tetromino) (direction : Direction)
    (cell : Z * Z) : option bool :=
  match direction with
  | DOWN =>
      let newY := cellY t cell + 1 in
      if newY * Block.HEIGHT >=? Viewport.CANVAS_HEIGHT then Some true
      else gridAt g newY (cellX t cell)
  | LEFT =>
      let newX := cellX t cell - 1 in
      if newX <? 0 then Some true
      else gridAt g (cellY t cell) newX
  | RIGHT =>
      let newX := cellX t cell + 1 in
      if newX >=? Viewport.CANVAS_WIDTH / Block.WIDTH then Some true
      else gridAt g (cellY t cell) newX
  | ROTATE =>
      let newY := cellY t cell in
      let newX := cellX t cell in
      if newY <? 0 then Some true
      else if newY >=? Viewport.CANVAS_HEIGHT / Block.HEIGHT then Some true
      else if newX <? 0 then Some true
      else if newX >=? Viewport.CANVAS_WIDTH / Block.WIDTH then Some true
      else gridAt g newY newX
  end.

(** A piece with its rotation set to [r]. *)
Definition withRotation (t : Tetromino) (r : Z) : Tetromino := {|
  shapes := shapes t;
  position := position t;
  color := color t;
  rotation := r
|}.

(** A piece one row further down. *)
Definition movedDown (t : Tetromino) : Tetromino := {|
  shapes := shapes t;
  position := {| x := x (position t); y := y (position t) + 1 |};
  color := color t;
  rotation := rotation t
|}.

(** A state with another high score. *)
Definition withHighScore (s : State) (h : Z) : State := {|
  currentTetromino := currentTetromino s;
  nextTetromino := nextTetromino s;
  heldElement := heldElement s;
  grid := grid s;
  score := score s;
  level := level s;
  highScore := h;
  gameEnd := gameEnd s;
  speedMultiplier := speedMultiplier s;
  speedCount := speedCount s;
  rowsCleared := rowsCleared s;
  usedHold := usedHold s
|}.

(** The greater of a score and a high score; a [NaN] score compares false and
    leaves the high score. *)
Definition greaterScore (points : number) (h : Z) : Z :=
  match points with
  | Num p => Z.max p h
  | NaN => h
  end.

(** The descent of a hard drop: how many times [Drop.apply] moves the piece
    one row down before it sees the DOWN collision, and the state in which it
    sees it. It follows the recursion of [Drop_apply] and leaves the locking
    step out. *)
Fixpoint Drop_descent (fuel : nat) (now : Z) (s : State) : option (nat * State) :=
  match fuel with
  | O => None
  | S fuel' =>
      collides <- collisionDetection s DOWN ;;
      if collides then Some (O, s)
      else
        s' <- moveTetrominoDown now s ;;
        '(n, pre) <- Drop_descent fuel' now s' ;;
        Some (S n, pre)
  end.

(** The number of full rows of a grid. *)
Definition fullRows (g : Grid) : nat := length (filter isFull g).

(** A piece of one of the seven kinds: a shape table of the catalog and a
    rotation that indexes it. *)
Definition catalogPiece (t : Tetromino) : Prop :=
  In (shapes t) (map shapes Tetrominos) /\
  0 <= rotation t < Z.of_nat (length (shapes t)).

Definition catalogPieceOpt (o : option Tetromino) : Prop :=
  match o with
  | Some t => catalogPiece t
  | None => True
  end.

(** A 10 x 20 grid. *)
Definition gridDims (g : Grid) : Prop :=
  length g = 20%nat /\ Forall (fun row => length row = 10%nat) g.

(** The invariant of the reachable states. *)
Record Inv (s : State) : Prop := mkInv {
  inv_dims : gridDims (grid s);
  inv_no_full_row : Forall (fun row => isFull row = false) (grid s);
  inv_current : catalogPieceOpt (currentTetromino s);
  inv_next : catalogPieceOpt (nextTetromino s);
  inv_held : catalogPieceOpt (heldElement s);
  inv_rows : 0 <= rowsCleared s;
  inv_level : level s = 1 + rowsCleared s / 3;
  inv_speed : speedMultiplier s = Constants.MULTIPLIER - level s \/
              (speedMultiplier s = 10 /\ rowsCleared s = 0)
}.

(** A script that clears two rows with five squares: each square is moved to
    its column and dropped. The clock reading 0 draws the square piece. *)
Definition squareRound : list (Action * Z) :=
  repeat (Move LEFT, 0) 4 ++ [(Drop, 0)] ++
  repeat (Move LEFT, 0) 2 ++ [(Drop, 0)] ++
  [(Drop, 0)] ++
  repeat (Move RIGHT, 0) 2 ++ [(Drop, 0)] ++
  repeat (Move RIGHT, 0) 4 ++ [(Drop, 0)].

Definition squareScript (rounds : nat) : list (Action * Z) :=
  concat (repeat squareRound rounds).

(** ** Vocabulary of the further properties *)

(** Column [c] of row [r] is a cell of the 10 x 20 grid. *)
Definition insideCell (c r : Z) : bool :=
  (0 <=? c) && (c <? 10) && (0 <=? r) && (r <? 20).

(** The grid cell [(column, row)] a filled cell of the piece would take after
    one step in [direction]; for ROTATE, the cell it takes now. *)
Definition moveTarget (direction : Direction) (t : Tetromino) (cell : Z * Z) : Z * Z :=
  match direction with
  | LEFT => (cellX t cell - 1, cellY t cell)
  | RIGHT => (cellX t cell + 1, cellY t cell)
  | DOWN => (cellX t cell, cellY t cell + 1)
  | ROTATE => (cellX t cell, cellY t cell)
  end.

(** Some filled cell of the piece would leave the grid or land on an occupied
    cell. *)
Definition moveBlocked (g : Grid) (t : Tetromino) (direction : Direction)
    (shape : TetrominoShape) : bool :=
  existsb (fun cell =>
             let target := moveTarget direction t cell in
             negb (insideCell (fst target) (snd target))
             || occupiedAt g (fst target) (snd target))
          (filledCells shape).

(** The piece shows a shape and all its filled cells are inside the grid. *)
Definition pieceInside (t : Tetromino) : bool :=
  match activeShape t with
  | Some shape => forallb (insideGrid t) (filledCells shape)
  | None => false
  end.

Definition pieceInsideOpt (o : option Tetromino) : bool :=
  match o with
  | Some t => pieceInside t
  | None => true
  end.

(** A piece [dx] columns to the right. *)
Definition movedBy (t : Tetromino) (dx : Z) : Tetromino := {|
  shapes := shapes t;
  position := {| x := x (position t) + dx; y := y (position t) |};
  color := color t;
  rotation := rotation t
|}.

(** The step of a horizontal move: +1 to the right, -1 otherwise. *)
Definition stepOf (direction : Direction) : Z :=
  match direction with
  | RIGHT => 1
  | _ => -1
  end.

(** The actions the driver of [main] builds: [Move] only with LEFT or RIGHT. *)
Definition driverAction (action : Action) : bool :=
  match action with
  | Move DOWN | Move ROTATE => false
  | _ => true
  end.

(** The states of a game played through the driver. *)
Inductive played (bootNow1 bootNow2 : Z) : State -> Prop :=
  | played_init : played bootNow1 bootNow2 (initialState bootNow1 bootNow2)
  | played_step (s s' : State) (action : Action) (now : Z) (fuel : nat) :
      played bootNow1 bootNow2 s ->
      driverAction action = true ->
      reduceState bootNow1 bootNow2 fuel now s action = Some s' ->
      played bootNow1 bootNow2 s'.

(** A state with another tick count. *)
Definition withSpeedCount (s : State) (n : Z) : State := {|
  currentTetromino := currentTetromino s;
  nextTetromino := nextTetromino s;
  heldElement := heldElement s;
  grid := grid s;
  score := score s;
  level := level s;
  highScore := highScore s;
  gameEnd := gameEnd s;
  speedMultiplier := speedMultiplier s;
  speedCount := n;
  rowsCleared := rowsCleared s;
  usedHold := usedHold s
|}.

(** Consecutive ticks, one clock reading each. *)
Fixpoint ticks (bootNow1 bootNow2 : Z) (nows : list Z) (s : State) : option State :=
  match nows with
  | [] => Some s
  | now :: rest =>
      s' <- GameFlow_apply bootNow1 bootNow2 now s ;;
      ticks bootNow1 bootNow2 rest s'
  end.

(** [n] consecutive soft drops. *)
Fixpoint downs (n : nat) (now : Z) (s : State) : option State :=
  match n with
  | O => Some s
  | S n' =>
      s' <- Down_apply now s ;;
      downs n' now s'
  end.

(** The points of a score that is a number. *)
Definition points (n : number) : option Z :=
  match n with
  | Num p => Some p
  | NaN => None
  end.

(** What the pieces of a state keep in play. *)
Record PieceInv (s : State) : Prop := mkPieceInv {
  pinv_current : pieceInsideOpt (currentTetromino s) = true;
  pinv_next : pieceInsideOpt (nextTetromino s) = true;
  pinv_held : pieceInsideOpt (heldElement s) = true
}.

(** What the score keeps in play. *)
Record ScoreInv (s : State) : Prop := mkScoreInv {
  sinv_score : exists p, score s = Num p /\ 0 <= p;
  sinv_high : 0 <= highScore s
}.

(** From [s] to [s'] the game loses nothing: score, cleared rows and level do
    not decrease, and the high score is the same. *)
Definition noLoss (s s' : State) : Prop :=
  exists p p',
    score s = Num p /\ score s' = Num p' /\ p <= p' /\
    rowsCleared s <= rowsCleared s' /\
    level s <= level s' /\
    highScore s' = highScore s.

(** A script that brings a held piece back onto a locked one: the square goes
    17 rows down and into the hold, the next square is dropped below it, and
    the second Hold brings the first one back. *)
Definition holdOverlapScript : list (Action * Z) :=
  repeat (Down, 0) 17 ++ [(Hold, 0); (Drop, 0); (Hold, 0)].

(** * Properties *)

(** ** Arrays *)

Lemma lookupZ_Some {A : Type} (l : list A) (i : Z) (a : A) :
  lookupZ l i = Some a <-> 0 <= i /\ nth_error l (Z.to_nat i) = Some a.
Proof.
  unfold lookupZ. destruct (i <? 0) eqn:E.
  - apply Z.ltb_lt in E. split; [discriminate | lia].
  - apply Z.ltb_ge in E. tauto.
Qed.

Lemma lookupZ_range {A : Type} (l : list A) (i : Z) (a : A) :
  lookupZ l i = Some a -> 0 <= i < Z.of_nat (length l).
Proof.
  intros H. apply lookupZ_Some in H. destruct H as [H0 H].
  assert (Z.to_nat i < length l)%nat by (apply nth_error_Some; congruence).
  lia.
Qed.

Lemma lookupZ_defined {A : Type} (l : list A) (i : Z) :
  0 <= i < Z.of_nat (length l) -> exists a, lookupZ l i = Some a.
Proof.
  intros H. destruct (nth_error l (Z.to_nat i)) eqn:E.
  - exists a. apply lookupZ_Some. split; [lia | exact E].
  - apply nth_error_None in E. lia.
Qed.

Lemma lookupZ_In {A : Type} (l : list A) (i : Z) (a : A) :
  lookupZ l i = Some a -> In a l.
Proof.
  intros H. apply lookupZ_Some in H. destruct H as [_ H].
  eapply nth_error_In; eauto.
Qed.

Lemma lookupZ_cons_succ {A : Type} (a : A) (l : list A) (i : Z) :
  0 <= i -> lookupZ (a :: l) (i + 1) = lookupZ l i.
Proof.
  intros H. unfold lookupZ.
  destruct (i + 1 <? 0) eqn:E1; [apply Z.ltb_lt in E1; lia |].
  destruct (i <? 0) eqn:E2; [apply Z.ltb_lt in E2; lia |].
  replace (Z.to_nat (i + 1)) with (S (Z.to_nat i)) by lia. reflexivity.
Qed.

(** ** Scoring *)

(** C2. For every level and every rowsCleared in [0,4], [calculateScore]
    returns 0 when rowsCleared is 0 and [(level + 1) * L[rowsCleared - 1]] with
    [L = [40, 100, 300, 1200]] when rowsCleared is in 1..4; in particular
    [calculateScore(0,1) = 40], [calculateScore(0,4) = 1200],
    [calculateScore(2,2) = 300] and [calculateScore(level, 0) = 0]. *)
Theorem calculateScore_table (lvl cleared : Z) :
  0 <= cleared <= 4 ->
  (cleared = 0 -> calculateScore lvl cleared = Num 0) /\
  (1 <= cleared ->
   exists points,
     lookupZ [40; 100; 300; 1200] (cleared - 1) = Some points /\
     calculateScore lvl cleared = Num ((lvl + 1) * points)) /\
  calculateScore 0 1 = Num 40 /\
  calculateScore 0 4 = Num 1200 /\
  calculateScore 2 2 = Num 300 /\
  calculateScore lvl 0 = Num 0.
Proof.
  intros H. repeat split; try reflexivity.
  - intros ->. reflexivity.
  - intros H1.
    assert (C : cleared = 1 \/ cleared = 2 \/ cleared = 3 \/ cleared = 4) by lia.
    destruct C as [-> | [-> | [-> | ->]]]; eexists; split; reflexivity.
Qed.

Lemma calculateScore_table_witness :
  0 <= 3 <= 4 /\
  calculateScore 5 3 = Num 1800.
Proof.
  split; [lia |].
  destruct (calculateScore_table 5 3 ltac:(lia)) as (_ & H & _).
  destruct (H ltac:(lia)) as (points & Hp & Hs).
  vm_compute in Hp. injection Hp as <-. exact Hs.
Defined.

(** ** Line clearing *)

Lemma isFull_spec (row : list GridCell) :
  isFull row = true <-> Forall (fun cell => cell <> None) row.
Proof.
  unfold isFull. rewrite forallb_forall, Forall_forall.
  split; intros H cell Hin; specialize (H cell Hin).
  - destruct cell; [discriminate | discriminate H].
  - destruct cell; [reflexivity | contradiction].
Qed.

Lemma filter_split_length {A : Type} (f : A -> bool) (l : list A) :
  (length (filter f l) + length (filter (fun a => negb (f a)) l) = length l)%nat.
Proof.
  induction l as [| a l IH]; simpl; [reflexivity |].
  destruct (f a); simpl; lia.
Qed.

Lemma lineClear_eq (g : Grid) (row0 : list GridCell) :
  lookupZ g 0 = Some row0 ->
  lineClear g =
    Some (repeat (repeat None (length row0)) (fullRows g)
            ++ filter (fun row => negb (isFull row)) g,
          Z.of_nat (fullRows g)).
Proof.
  intros H. unfold lineClear. rewrite H.
  pose proof (filter_split_length isFull g) as L. unfold fullRows.
  replace (length g - length (filter (fun row => negb (isFull row)) g))%nat
    with (length (filter isFull g)) by lia.
  do 2 f_equal. lia.
Qed.

(** C1 (as amended). For every grid with at least one row whose rows all have
    the same width [w], [lineClear] returns a grid of the same height made of
    [k] all-empty rows of width [w] on top of the non-full rows of the input
    in their original order, together with [rowsCleared = k], where [k] is the
    number of full rows and a row is full iff none of its cells is empty. *)
Theorem lineClear_removes_full_rows (g : Grid) (w : nat) :
  g <> [] ->
  Forall (fun row => length row = w) g ->
  let k := length (filter isFull g) in
  let kept := filter (fun row => negb (isFull row)) g in
  lineClear g = Some (repeat (repeat None w) k ++ kept, Z.of_nat k) /\
  length (repeat (repeat (@None string) w) k ++ kept) = length g /\
  (forall row, isFull row = true <-> Forall (fun cell => cell <> None) row).
Proof.
  intros Hne Hw k kept. destruct g as [| row0 rest]; [contradiction |].
  split; [| split].
  - rewrite (lineClear_eq (row0 :: rest) row0) by reflexivity.
    inversion Hw; subst. reflexivity.
  - rewrite length_app, repeat_length. subst k kept.
    apply filter_split_length.
  - exact isFull_spec.
Qed.

Lemma lineClear_removes_full_rows_witness :
  let g : Grid :=
    [ [Some "red"%string; None];
      [Some "red"%string; Some "blue"%string];
      [None; Some "cyan"%string] ] in
  lineClear g =
    Some ([ [None; None];
            [Some "red"%string; None];
            [None; Some "cyan"%string] ], 1).
Proof.
  intros g.
  assert (Hne : g <> []) by discriminate.
  assert (Hw : Forall (fun row => length row = 2%nat) g)
    by (repeat constructor).
  exact (proj1 (lineClear_removes_full_rows g 2 Hne Hw)).
Defined.

(** C1, the input on which the claim as stated fails: a grid without rows has
    all its rows of one width, and [lineClear] throws on it when it reads
    [grid[0].length]. *)
Lemma lineClear_no_rows_throws :
  Forall (fun row : list GridCell => length row = 10%nat) [] /\
  lineClear [] = None.
Proof. split; [constructor | reflexivity]. Qed.

(** The spec's example: rows 2 and 5 of a 10 x 20 grid are full, every other
    row is empty or partly filled. *)
Lemma lineClear_rows_2_and_5 :
  let full : list GridCell := repeat (Some "red"%string) 10 in
  let part : list GridCell := Some "blue"%string :: repeat None 9 in
  let empty : list GridCell := repeat None 10 in
  lineClear ([empty; part; full; empty; part; full] ++ repeat part 14) =
    Some ([empty; empty; empty; part; empty; part] ++ repeat part 14, 2).
Proof. reflexivity. Qed.

Lemma lineClear_empty_grid :
  lineClear (initialiseGrid 10 20) = Some (initialiseGrid 10 20, 0).
Proof. reflexivity. Qed.

(** ** Random generator *)

(** *** Powers of two *)

Lemma pow2_pos (k : Z) : (0 < pow2 k)%Q.
Proof. apply Qpower_0_lt. reflexivity. Qed.

Lemma pow2_plus (i j : Z) : (pow2 (i + j) == pow2 i * pow2 j)%Q.
Proof. apply Qpower_plus. discriminate. Qed.

Lemma pow2_Z (k : Z) : 0 <= k -> (pow2 k == inject_Z (2 ^ k))%Q.
Proof. intros H. symmetry. apply (Zpower_Qpower 2 k H). Qed.

Lemma pow2_le (i j : Z) : i <= j -> (pow2 i <= pow2 j)%Q.
Proof. intros H. apply Qpower_le_compat_l; [exact H | discriminate]. Qed.

Lemma pow2_lt_inv (i j : Z) : (pow2 i < pow2 j)%Q -> i < j.
Proof. intros H. apply (Qpower_lt_compat_l_inv 2); [exact H | reflexivity]. Qed.

Lemma pow2_cancel (k : Z) : (pow2 k * pow2 (- k) == 1)%Q.
Proof. rewrite <- pow2_plus. replace (k + - k) with 0 by lia. reflexivity. Qed.

Lemma div_pow2 (x : Q) (k : Z) : (x / pow2 k == x * pow2 (- k))%Q.
Proof.
  unfold Qdiv. apply Qmult_comp; [reflexivity |].
  unfold pow2. rewrite Qpower_opp. reflexivity.
Qed.

(** ** Rounding to the nearest integer, ties to even *)

Lemma roundHalfEven_comp (x y : Q) : (x == y)%Q -> roundHalfEven x = roundHalfEven y.
Proof.
  intros H. unfold roundHalfEven.
  rewrite (Qfloor_comp _ _ H).
  assert (E : (x - inject_Z (Qfloor y) ?= 1 # 2)%Q = (y - inject_Z (Qfloor y) ?= 1 # 2)%Q).
  { apply Qcompare_comp; [rewrite H; reflexivity | reflexivity]. }
  rewrite E. reflexivity.
Qed.

Lemma roundHalfEven_close (y : Q) :
  (y - (1 # 2) <= inject_Z (roundHalfEven y) <= y + (1 # 2))%Q.
Proof.
  unfold roundHalfEven.
  pose proof (Qfloor_le y) as Hlo. pose proof (Qlt_floor y) as Hhi.
  rewrite inject_Z_plus in Hhi. change (inject_Z 1) with 1%Q in Hhi.
  destruct (Qcompare_spec (y - inject_Z (Qfloor y)) (1 # 2)) as [E | E | E].
  - destruct (Z.even (Qfloor y)).
    + split; lra.
    + rewrite inject_Z_plus. change (inject_Z 1) with 1%Q. split; lra.
  - split; lra.
  - rewrite inject_Z_plus. change (inject_Z 1) with 1%Q. split; lra.
Qed.

Lemma roundHalfEven_Z (k : Z) : roundHalfEven (inject_Z k) = k.
Proof.
  unfold roundHalfEven. rewrite Qfloor_Z.
  assert (E : (inject_Z k - inject_Z k ?= 1 # 2)%Q = Lt).
  { apply Qlt_alt. setoid_replace (inject_Z k - inject_Z k)%Q with 0%Q by ring. reflexivity. }
  rewrite E. reflexivity.
Qed.

Lemma roundHalfEven_ge (y : Q) (k : Z) : (inject_Z k <= y)%Q -> k <= roundHalfEven y.
Proof.
  intros H. pose proof (roundHalfEven_close y) as [Hlo _].
  assert (L : (inject_Z k < inject_Z (roundHalfEven y + 1))%Q).
  { rewrite inject_Z_plus. change (inject_Z 1) with 1%Q. lra. }
  rewrite <- Zlt_Qlt in L. lia.
Qed.

(** ** The binade of a positive number *)

Lemma binade_comp (x y : Q) : (x == y)%Q -> binade x = binade y.
Proof.
  intros H. unfold binade.
  rewrite (Qfloor_comp (x * pow2 1074) (y * pow2 1074)); [reflexivity |].
  rewrite H. reflexivity.
Qed.

Lemma binade_lo (x : Q) : - 1022 <= binade x.
Proof. unfold binade. lia. Qed.

Lemma binade_upper (x : Q) : (0 <= x)%Q -> (x < pow2 (binade x + 1))%Q.
Proof.
  intros Hx. unfold binade.
  set (n := Qfloor (x * pow2 1074)).
  pose proof (Qlt_floor (x * pow2 1074)) as Fh. fold n in Fh.
  assert (Hn : 0 <= n).
  { unfold n. rewrite <- (Qfloor_Z 0). apply Qfloor_resp_le.
    change (inject_Z 0) with 0%Q. apply Qmult_le_0_compat; [exact Hx |].
    apply Qlt_le_weak, pow2_pos. }
  assert (X : (x == x * pow2 1074 * pow2 (- 1074))%Q).
  { rewrite <- Qmult_assoc, (pow2_cancel 1074). ring. }
  set (e := Z.max (- 1022) (Z.log2 n - 1074)).
  apply Qlt_le_trans with (pow2 (Z.succ (Z.log2 n) + - 1074)).
  - rewrite pow2_plus. rewrite X at 1.
    apply Qmult_lt_compat_r; [apply pow2_pos |].
    pose proof (Z.log2_nonneg n) as Hl.
    rewrite (pow2_Z (Z.succ (Z.log2 n)) ltac:(lia)).
    apply Qlt_le_trans with (inject_Z (n + 1)); [exact Fh |].
    rewrite <- Zle_Qle.
    destruct (Z.eq_dec n 0) as [E | E].
    + rewrite E. simpl. lia.
    + destruct (Z.log2_spec n ltac:(lia)) as [_ Hhi]. lia.
  - apply pow2_le. unfold e. lia.
Qed.

Lemma binade_cases (x : Q) :
  (0 <= x)%Q -> binade x = - 1022 \/ (pow2 (binade x) <= x)%Q.
Proof.
  intros Hx. unfold binade.
  set (n := Qfloor (x * pow2 1074)).
  destruct (Z.max_spec (- 1022) (Z.log2 n - 1074)) as [[Hlt E] | [Hle E]];
    rewrite E; [| left; reflexivity].
  right.
  assert (Hl : 0 < Z.log2 n) by lia.
  assert (Hn : 0 < n).
  { destruct (Z.lt_ge_cases 0 n) as [P | P]; [exact P |].
    rewrite (Z.log2_nonpos n P) in Hl. lia. }
  destruct (Z.log2_spec n Hn) as [Hlo _].
  pose proof (Qfloor_le (x * pow2 1074)) as Fl. fold n in Fl.
  assert (X : (x == x * pow2 1074 * pow2 (- 1074))%Q).
  { rewrite <- Qmult_assoc, (pow2_cancel 1074). ring. }
  replace (Z.log2 n - 1074) with (Z.log2 n + - 1074) by lia.
  rewrite pow2_plus. rewrite X at 1.
  apply Qmult_le_compat_r; [| apply Qlt_le_weak, pow2_pos].
  rewrite (pow2_Z (Z.log2 n) ltac:(lia)).
  apply Qle_trans with (inject_Z n); [rewrite <- Zle_Qle; exact Hlo | exact Fl].
Qed.

Lemma binade_le (x : Q) (k : Z) :
  (0 <= x)%Q -> (x < pow2 (k + 1))%Q -> - 1022 <= k -> binade x <= k.
Proof.
  intros Hx Hk Hr.
  destruct (binade_cases x Hx) as [E | L]; [lia |].
  assert (P : (pow2 (binade x) < pow2 (k + 1))%Q) by (eapply Qle_lt_trans; eassumption).
  apply pow2_lt_inv in P. lia.
Qed.

Lemma binade_ge (x : Q) (k : Z) : (pow2 k <= x)%Q -> k <= binade x.
Proof.
  intros Hk.
  assert (Hx : (0 <= x)%Q).
  { apply Qle_trans with (pow2 k); [apply Qlt_le_weak, pow2_pos | exact Hk]. }
  pose proof (binade_upper x Hx) as U.
  assert (P : (pow2 k < pow2 (binade x + 1))%Q) by (eapply Qle_lt_trans; eassumption).
  apply pow2_lt_inv in P. lia.
Qed.

Lemma binade_lower (x : Q) : (pow2 (- 1022) <= x)%Q -> (pow2 (binade x) <= x)%Q.
Proof.
  intros Hx.
  assert (H0 : (0 <= x)%Q).
  { apply Qle_trans with (pow2 (- 1022)); [apply Qlt_le_weak, pow2_pos | exact Hx]. }
  destruct (binade_cases x H0) as [E | L]; [rewrite E; exact Hx | exact L].
Qed.

Lemma roundHalfEven_le (y : Q) (k : Z) : (y <= inject_Z k)%Q -> roundHalfEven y <= k.
Proof.
  intros H. pose proof (roundHalfEven_close y) as [_ Hhi].
  assert (L : (inject_Z (roundHalfEven y) < inject_Z (k + 1))%Q).
  { rewrite inject_Z_plus. change (inject_Z 1) with 1%Q. lra. }
  rewrite <- Zlt_Qlt in L. lia.
Qed.

(** ** Rounding to binary64 *)

Lemma roundPositive_comp (x y : Q) : (x == y)%Q -> roundPositive x = roundPositive y.
Proof.
  intros H. unfold roundPositive. rewrite (binade_comp _ _ H).
  rewrite (roundHalfEven_comp (x / pow2 (binade y - 52)) (y / pow2 (binade y - 52)));
    [reflexivity | rewrite H; reflexivity].
Qed.

Lemma round64_comp (x y : Q) : (x == y)%Q -> round64 x = round64 y.
Proof.
  intros H. unfold round64.
  assert (E : (x ?= 0)%Q = (y ?= 0)%Q) by (apply Qcompare_comp; [exact H | reflexivity]).
  rewrite E, (roundPositive_comp _ _ H).
  rewrite (roundPositive_comp (- x) (- y)) by (rewrite H; reflexivity).
  reflexivity.
Qed.

Lemma round64_zero (x : Q) : (x == 0)%Q -> round64 x = 0%Q.
Proof. intros H. unfold round64. rewrite (proj1 (Qeq_alt x 0) H). reflexivity. Qed.

Lemma round64_pos (x : Q) : (0 < x)%Q -> round64 x = roundPositive x.
Proof. intros H. unfold round64. rewrite (proj1 (Qgt_alt x 0) H). reflexivity. Qed.

Lemma round64_neg (x : Q) : (x < 0)%Q -> round64 x = (- roundPositive (- x))%Q.
Proof. intros H. unfold round64. rewrite (proj1 (Qlt_alt x 0) H). reflexivity. Qed.

Lemma pow2_neq_0 (k : Z) : ~ (pow2 k == 0)%Q.
Proof. intros E. pose proof (pow2_pos k) as P. rewrite E in P. discriminate. Qed.

Lemma grid_scaled (K g e : Z) :
  e - 52 <= g ->
  (inject_Z K * pow2 g / pow2 (e - 52) == inject_Z (K * 2 ^ (g - (e - 52))))%Q.
Proof.
  intros H. rewrite div_pow2, <- Qmult_assoc, <- pow2_plus.
  replace (g + - (e - 52)) with (g - (e - 52)) by lia.
  rewrite (pow2_Z (g - (e - 52))) by lia. rewrite <- inject_Z_mult. reflexivity.
Qed.

Lemma grid_unscaled (K g e : Z) :
  e - 52 <= g ->
  (inject_Z K * pow2 g == inject_Z (K * 2 ^ (g - (e - 52))) * pow2 (e - 52))%Q.
Proof.
  intros H. rewrite <- (grid_scaled K g e H). field. apply pow2_neq_0.
Qed.

Lemma roundPositive_nonneg (x : Q) : (0 <= x)%Q -> (0 <= roundPositive x)%Q.
Proof.
  intros Hx. unfold roundPositive.
  apply Qmult_le_0_compat; [| apply Qlt_le_weak, pow2_pos].
  change 0%Q with (inject_Z 0). rewrite <- Zle_Qle. apply roundHalfEven_ge.
  change (inject_Z 0) with 0%Q.
  apply Qmult_le_0_compat; [exact Hx | apply Qlt_le_weak, Qinv_lt_0_compat, pow2_pos].
Qed.

(** A number on a grid of step [2^g] that the precision can resolve is never
    crossed by rounding. *)
Lemma roundPositive_ge_grid (x Y : Q) (K g : Z) :
  (0 <= x)%Q -> (x < pow2 (g + 53))%Q -> - 1074 <= g ->
  (Y == inject_Z K * pow2 g)%Q ->
  (Y <= x)%Q -> (Y <= roundPositive x)%Q.
Proof.
  intros Hx Hb Hg HY HK. unfold roundPositive.
  set (e := binade x).
  assert (He : e <= g + 52).
  { apply binade_le; [exact Hx | | lia]. replace (g + 52 + 1) with (g + 53) by lia. exact Hb. }
  assert (Hu : (0 < pow2 (e - 52))%Q) by apply pow2_pos.
  assert (N : K * 2 ^ (g - (e - 52)) <= roundHalfEven (x / pow2 (e - 52))).
  { apply roundHalfEven_ge. rewrite <- grid_scaled by lia. rewrite <- HY.
    unfold Qdiv. apply Qmult_le_compat_r; [exact HK |].
    apply Qlt_le_weak, Qinv_lt_0_compat, Hu. }
  rewrite Zle_Qle in N.
  rewrite HY, (grid_unscaled K g e ltac:(lia)).
  apply Qmult_le_compat_r; [exact N | apply Qlt_le_weak, Hu].
Qed.

Lemma roundPositive_le_grid (x Y : Q) (K g : Z) :
  (0 <= x)%Q -> (x < pow2 (g + 53))%Q -> - 1074 <= g ->
  (Y == inject_Z K * pow2 g)%Q ->
  (x <= Y)%Q -> (roundPositive x <= Y)%Q.
Proof.
  intros Hx Hb Hg HY HK. unfold roundPositive.
  set (e := binade x).
  assert (He : e <= g + 52).
  { apply binade_le; [exact Hx | | lia]. replace (g + 52 + 1) with (g + 53) by lia. exact Hb. }
  assert (Hu : (0 < pow2 (e - 52))%Q) by apply pow2_pos.
  assert (N : roundHalfEven (x / pow2 (e - 52)) <= K * 2 ^ (g - (e - 52))).
  { apply roundHalfEven_le. rewrite <- grid_scaled by lia. rewrite <- HY.
    unfold Qdiv. apply Qmult_le_compat_r; [exact HK |].
    apply Qlt_le_weak, Qinv_lt_0_compat, Hu. }
  rewrite Zle_Qle in N.
  rewrite HY, (grid_unscaled K g e ltac:(lia)).
  apply Qmult_le_compat_r; [exact N | apply Qlt_le_weak, Hu].
Qed.

Lemma grid_opp (Y : Q) (K g : Z) :
  (Y == inject_Z K * pow2 g)%Q -> (- Y == inject_Z (- K) * pow2 g)%Q.
Proof. intros H. rewrite H, inject_Z_opp. ring. Qed.

Lemma round64_ge_grid (x Y : Q) (K g : Z) :
  (- pow2 (g + 53) < x)%Q -> (x < pow2 (g + 53))%Q -> - 1074 <= g ->
  (Y == inject_Z K * pow2 g)%Q ->
  (Y <= x)%Q -> (Y <= round64 x)%Q.
Proof.
  intros Hlo Hhi Hg HY HK.
  destruct (Qcompare_spec x 0) as [E | L | G].
  - rewrite (round64_zero x E). rewrite <- E. exact HK.
  - rewrite (round64_neg x L).
    assert (R : (roundPositive (- x) <= - Y)%Q).
    { apply (roundPositive_le_grid (- x) (- Y) (- K) g); [lra | lra | exact Hg | | lra].
      apply grid_opp, HY. }
    lra.
  - rewrite (round64_pos x G).
    apply (roundPositive_ge_grid x Y K g); [lra | exact Hhi | exact Hg | exact HY | exact HK].
Qed.

Lemma round64_le_grid (x Y : Q) (K g : Z) :
  (- pow2 (g + 53) < x)%Q -> (x < pow2 (g + 53))%Q -> - 1074 <= g ->
  (Y == inject_Z K * pow2 g)%Q ->
  (x <= Y)%Q -> (round64 x <= Y)%Q.
Proof.
  intros Hlo Hhi Hg HY HK.
  destruct (Qcompare_spec x 0) as [E | L | G].
  - rewrite (round64_zero x E). rewrite <- E. exact HK.
  - rewrite (round64_neg x L).
    assert (R : (- Y <= roundPositive (- x))%Q).
    { apply (roundPositive_ge_grid (- x) (- Y) (- K) g); [lra | lra | exact Hg | | lra].
      apply grid_opp, HY. }
    lra.
  - rewrite (round64_pos x G).
    apply (roundPositive_le_grid x Y K g); [lra | exact Hhi | exact Hg | exact HY | exact HK].
Qed.

(** Integers below [2^53] in magnitude are binary64 numbers. *)
Lemma round64_Z (z : Z) :
  - 2 ^ 53 < z < 2 ^ 53 -> (round64 (inject_Z z) == inject_Z z)%Q.
Proof.
  intros Hz.
  assert (Hlo : (- pow2 (0 + 53) < inject_Z z)%Q).
  { change (- pow2 (0 + 53))%Q with (inject_Z (- 2 ^ 53)). rewrite <- Zlt_Qlt. lia. }
  assert (Hhi : (inject_Z z < pow2 (0 + 53))%Q).
  { change (pow2 (0 + 53)) with (inject_Z (2 ^ 53)). rewrite <- Zlt_Qlt. lia. }
  assert (HY : (inject_Z z == inject_Z z * pow2 0)%Q).
  { change (pow2 0) with 1%Q. ring. }
  apply Qle_antisym.
  - apply (round64_le_grid _ _ z 0 Hlo Hhi ltac:(lia) HY). apply Qle_refl.
  - apply (round64_ge_grid _ _ z 0 Hlo Hhi ltac:(lia) HY). apply Qle_refl.
Qed.

(** From [2^53] on, binary64 numbers are even integers. *)
Lemma round64_big (x : Q) :
  (pow2 53 <= x)%Q ->
  exists k : Z, (round64 x == inject_Z (2 * k))%Q /\ (pow2 53 <= round64 x)%Q.
Proof.
  intros Hx.
  assert (H0 : (0 < x)%Q).
  { apply Qlt_le_trans with (pow2 53); [apply pow2_pos | exact Hx]. }
  rewrite (round64_pos x H0). unfold roundPositive.
  pose proof (binade_ge x 53 Hx) as He.
  assert (Hl : (pow2 (binade x) <= x)%Q).
  { apply binade_lower. apply Qle_trans with (pow2 53); [apply pow2_le; lia | exact Hx]. }
  set (e := binade x) in *.
  set (n := roundHalfEven (x / pow2 (e - 52))).
  assert (Hu : (0 < pow2 (e - 52))%Q) by apply pow2_pos.
  assert (U : (pow2 (e - 52) == inject_Z (2 * 2 ^ (e - 53)))%Q).
  { rewrite (pow2_Z (e - 52) ltac:(lia)).
    replace (e - 52) with (Z.succ (e - 53)) by lia.
    rewrite Z.pow_succ_r by lia. reflexivity. }
  assert (N : 2 ^ 52 <= n).
  { apply roundHalfEven_ge.
    assert (G : (inject_Z (2 ^ 52) == pow2 e / pow2 (e - 52))%Q).
    { rewrite div_pow2, <- pow2_plus. replace (e + - (e - 52)) with 52 by lia. reflexivity. }
    rewrite G. unfold Qdiv. apply Qmult_le_compat_r; [exact Hl |].
    apply Qlt_le_weak, Qinv_lt_0_compat, Hu. }
  exists (n * 2 ^ (e - 53)). split.
  - rewrite U, <- inject_Z_mult. apply inject_Z_injective. ring.
  - apply Qle_trans with (pow2 e); [apply pow2_le; lia |].
    assert (G : (pow2 e == inject_Z (2 ^ 52) * pow2 (e - 52))%Q).
    { change (inject_Z (2 ^ 52)) with (pow2 52). rewrite <- pow2_plus.
      replace (52 + (e - 52)) with e by lia. reflexivity. }
    rewrite G. apply Qmult_le_compat_r; [| apply Qlt_le_weak, Hu].
    rewrite <- Zle_Qle. exact N.
Qed.

Lemma round64_nonneg (x : Q) : (0 <= x)%Q -> (0 <= round64 x)%Q.
Proof.
  intros Hx. destruct (Qcompare_spec x 0) as [E | L | G].
  - rewrite (round64_zero x E). apply Qle_refl.
  - lra.
  - rewrite (round64_pos x G). apply roundPositive_nonneg, Hx.
Qed.

(** ** The generator *)

Lemma jsRem_nonneg (x : Q) (s : Z) :
  (x == inject_Z s)%Q -> 0 <= s ->
  (jsRem x RNG.m == inject_Z (s mod 2147483648))%Q.
Proof.
  intros Hx Hs. unfold jsRem, truncate, RNG.m.
  assert (Hd : (x / inject_Z 2147483648 == inject_Z s / inject_Z 2147483648)%Q)
    by (rewrite Hx; reflexivity).
  assert (Hp : (0 <= x / inject_Z 2147483648)%Q).
  { rewrite Hd. apply Qle_shift_div_l; [reflexivity |].
    rewrite Qmult_0_l. change 0%Q with (inject_Z 0). rewrite <- Zle_Qle. exact Hs. }
  rewrite (proj2 (Qle_bool_iff _ _) Hp).
  rewrite (Qfloor_comp _ _ Hd), <- Zdiv_Qdiv.
  rewrite Hx. unfold Qminus. rewrite <- inject_Z_mult, <- inject_Z_opp, <- inject_Z_plus.
  apply inject_Z_injective. rewrite Z.mod_eq by lia. ring.
Qed.

Lemma lcg_never_largest (now : Z) :
  0 <= now -> 1103515245 * now + 12345 < 2 ^ 53 ->
  (1103515245 * now + 12345) mod 2147483648 <> 2147483647.
Proof.
  intros H0 Hb E.
  pose proof (Z.div_mod (1103515245 * now + 12345) 2147483648 ltac:(lia)) as D.
  rewrite E in D.
  set (q := (1103515245 * now + 12345) / 2147483648) in D.
  assert (N : now = 2147483648 * (1857678181 * q - 954594553 * now + 1857667501) + 230538014)
    by lia.
  lia.
Qed.

Lemma hash_of_sum (now s : Z) :
  (round64 (round64 (RNG.a * inject_Z now) + RNG.c) == inject_Z s)%Q -> 0 <= s ->
  (RNG.hash (inject_Z now) == inject_Z (s mod 2147483648))%Q.
Proof. intros H Hs. unfold RNG.hash. apply jsRem_nonneg; assumption. Qed.

Lemma hash_on_clock (now : Z) :
  0 <= now < 2 ^ 53 ->
  exists h : Z,
    (RNG.hash (inject_Z now) == inject_Z h)%Q /\
    0 <= h < 2147483647 /\
    (1103515245 * now + 12345 < 2 ^ 53 -> h = (1103515245 * now + 12345) mod 2147483648) /\
    (2 ^ 53 <= 1103515245 * now + 12345 -> Z.even h = true).
Proof.
  intros Hn.
  assert (PA : (RNG.a * inject_Z now == inject_Z (1103515245 * now))%Q).
  { unfold RNG.a. rewrite <- inject_Z_mult. reflexivity. }
  destruct (Z.lt_ge_cases (1103515245 * now + 12345) (2 ^ 53)) as [Small | Big].
  - (* every step is exact *)
    assert (P : (round64 (RNG.a * inject_Z now) == inject_Z (1103515245 * now))%Q).
    { rewrite (round64_comp _ _ PA). apply round64_Z. lia. }
    assert (S : (round64 (round64 (RNG.a * inject_Z now) + RNG.c)
                 == inject_Z (1103515245 * now + 12345))%Q).
    { rewrite (round64_comp _ (inject_Z (1103515245 * now + 12345))).
      - apply round64_Z. lia.
      - rewrite P. unfold RNG.c. rewrite <- inject_Z_plus. reflexivity. }
    exists ((1103515245 * now + 12345) mod 2147483648). split.
    + apply (hash_of_sum now _ S). lia.
    + pose proof (Z.mod_pos_bound (1103515245 * now + 12345) 2147483648 ltac:(lia)).
      pose proof (lcg_never_largest now ltac:(lia) Small).
      split; [lia |]. split; [reflexivity | lia].
  - (* the sum is rounded to an even integer *)
    assert (P : (pow2 53 <= round64 (RNG.a * inject_Z now) + RNG.c)%Q).
    { destruct (Z.lt_ge_cases (1103515245 * now) (2 ^ 53)) as [PS | PB].
      - assert (P : (round64 (RNG.a * inject_Z now) == inject_Z (1103515245 * now))%Q).
        { rewrite (round64_comp _ _ PA). apply round64_Z. lia. }
        rewrite P. unfold RNG.c. rewrite <- inject_Z_plus.
        change (pow2 53) with (inject_Z (2 ^ 53)). rewrite <- Zle_Qle. exact Big.
      - destruct (round64_big (RNG.a * inject_Z now)) as (k & _ & Hk).
        + rewrite PA. change (pow2 53) with (inject_Z (2 ^ 53)). rewrite <- Zle_Qle. exact PB.
        + apply Qle_trans with (round64 (RNG.a * inject_Z now) + 0)%Q.
          * rewrite Qplus_0_r. exact Hk.
          * apply Qplus_le_r. discriminate. }
    destruct (round64_big _ P) as (k & Ek & Hk).
    assert (K : 0 <= k).
    { rewrite Ek in Hk.
      assert (L : (inject_Z 0 <= inject_Z (2 * k))%Q).
      { apply Qle_trans with (pow2 53); [discriminate | exact Hk]. }
      rewrite <- Zle_Qle in L. lia. }
    exists ((2 * k) mod 2147483648). split.
    + apply (hash_of_sum now _ Ek). lia.
    + pose proof (Z.mod_pos_bound (2 * k) 2147483648 ltac:(lia)).
      pose proof (Z.div_mod (2 * k) 2147483648 ltac:(lia)) as Dm.
      split; [lia |]. split; [lia |]. intros _.
      apply Z.even_spec. exists (k - 1073741824 * (2 * k / 2147483648)). lia.
Qed.

Lemma scaleHash_in_range (hq : Q) (h min max : Z) :
  (hq == inject_Z h)%Q -> 0 <= h < 2147483647 ->
  - 2 ^ 21 < min -> min <= max -> max < 2 ^ 21 ->
  min <= RNG.scaleHash hq min max <= max.
Proof.
  intros Hq Hh Hmin Hmm Hmax. unfold RNG.scaleHash.
  (* the divisor and the width are exact *)
  assert (D : (round64 (RNG.m - 1) == inject_Z 2147483647)%Q).
  { rewrite (round64_comp _ (inject_Z 2147483647)) by reflexivity. apply round64_Z. lia. }
  assert (R : (round64 (round64 (inject_Z max - inject_Z min) + 1) == inject_Z (max - min + 1))%Q).
  { assert (R1 : (round64 (inject_Z max - inject_Z min) == inject_Z (max - min))%Q).
    { rewrite (round64_comp _ (inject_Z (max - min))).
      - apply round64_Z. lia.
      - unfold Qminus, Z.sub. rewrite inject_Z_plus, inject_Z_opp. reflexivity. }
    rewrite (round64_comp _ (inject_Z (max - min + 1))).
    - apply round64_Z. lia.
    - rewrite R1, inject_Z_plus. reflexivity. }
  set (r := max - min + 1) in *.
  assert (Hr : 1 <= r < 2 ^ 22) by (unfold r; lia).
  assert (Qr : (1 <= inject_Z r)%Q /\ (inject_Z r < 4194304)%Q).
  { split.
    - change 1%Q with (inject_Z 1). rewrite <- Zle_Qle. lia.
    - change 4194304%Q with (inject_Z (2 ^ 22)). rewrite <- Zlt_Qlt. lia. }
  assert (Qh : (0 <= inject_Z h)%Q /\ (inject_Z h <= 2147483646)%Q).
  { split.
    - change 0%Q with (inject_Z 0). rewrite <- Zle_Qle. lia.
    - change 2147483646%Q with (inject_Z 2147483646). rewrite <- Zle_Qle. lia. }
  assert (Qmin : (- (2097152) < inject_Z min)%Q).
  { change (- (2097152))%Q with (inject_Z (- 2 ^ 21)). rewrite <- Zlt_Qlt. lia. }
  assert (Qmax : (inject_Z min + inject_Z r <= 2097152)%Q).
  { rewrite <- inject_Z_plus. change 2097152%Q with (inject_Z (2 ^ 21)).
    rewrite <- Zle_Qle. unfold r. lia. }
  assert (E31 : pow2 (- 31) = (1 # 2147483648)%Q) by reflexivity.
  assert (E22 : pow2 (- 31 + 53) = 4194304%Q) by reflexivity.
  assert (E53 : pow2 (0 + 53) = 9007199254740992%Q) by reflexivity.
  (* scale stays at or below 1 - 2^-31 *)
  set (x := (hq / round64 (RNG.m - 1))%Q).
  assert (X : (x == inject_Z h * (1 # 2147483647))%Q).
  { unfold x. rewrite Hq, D. reflexivity. }
  set (scale := round64 x).
  assert (S0 : (0 <= scale)%Q) by (apply round64_nonneg; lra).
  assert (S1 : (scale <= inject_Z 2147483647 * pow2 (- 31))%Q).
  { apply (round64_le_grid x _ 2147483647 (- 31)); [rewrite E22; lra | rewrite E22; lra | lia
      | reflexivity | rewrite E31; change (inject_Z 2147483647) with 2147483647%Q; lra]. }
  rewrite E31 in S1. change (inject_Z 2147483647) with 2147483647%Q in S1.
  (* so does the scaled width *)
  set (width := round64 (round64 (inject_Z max - inject_Z min) + 1)) in *.
  set (p := (scale * width)%Q).
  assert (P0 : (0 <= p)%Q).
  { unfold p. apply Qmult_le_0_compat; [exact S0 | rewrite R; lra]. }
  assert (P1 : (p <= (2147483647 # 2147483648) * inject_Z r)%Q).
  { unfold p. rewrite R. apply Qmult_le_compat_r; lra. }
  set (w := round64 p).
  assert (W0 : (0 <= w)%Q) by (apply round64_nonneg; exact P0).
  assert (W1 : (w <= (2147483647 # 2147483648) * inject_Z r)%Q).
  { apply (round64_le_grid p _ (2147483647 * r) (- 31)); [rewrite E22; lra | rewrite E22; lra | lia
      | | exact P1].
    rewrite E31, inject_Z_mult. change (inject_Z 2147483647) with 2147483647%Q. field. }
  (* the sum lies on the same grid, below max + 1 *)
  set (v := (inject_Z min + w)%Q).
  assert (V0 : (inject_Z min <= round64 v)%Q).
  { apply (round64_ge_grid v _ min 0); [rewrite E53; unfold v; lra | rewrite E53; unfold v; lra
      | lia | change (pow2 0) with 1%Q; ring | unfold v; lra]. }
  assert (V1 : (round64 v <= inject_Z min + (2147483647 # 2147483648) * inject_Z r)%Q).
  { apply (round64_le_grid v _ (2147483648 * min + 2147483647 * r) (- 31));
      [rewrite E22; unfold v; lra | rewrite E22; unfold v; lra | lia | | unfold v; lra].
    rewrite E31, inject_Z_plus, !inject_Z_mult.
    change (inject_Z 2147483647) with 2147483647%Q.
    change (inject_Z 2147483648) with 2147483648%Q. field. }
  split.
  - rewrite <- (Qfloor_Z min). apply Qfloor_resp_le. exact V0.
  - assert (L : (inject_Z (Qfloor (round64 v)) < inject_Z (max + 1))%Q).
    { apply Qle_lt_trans with (round64 v); [apply Qfloor_le |].
      replace (max + 1) with (min + r) by (unfold r; lia).
      rewrite inject_Z_plus. lra. }
    rewrite <- Zlt_Qlt in L. lia.
Qed.

(** C6 (as amended). For every clock reading [0 <= now < 2^53] (every value
    of [Date.now()] from 1970 on) and all integers [-2^21 < min <= max < 2^21],
    [randomInt(min, max)], computed in binary64, returns an integer in
    [min, max]. The hash of such a clock reading is an integer below
    [2^31 - 1], so the scale [hash / (m - 1)] is at most [1 - 2^-31], and the
    bounds leave binary64 enough precision to keep the result below
    [max + 1]. *)
Theorem randomInt_in_range (now min max : Z) :
  0 <= now < 2 ^ 53 ->
  - 2 ^ 21 < min -> min <= max -> max < 2 ^ 21 ->
  min <= RNG.randomInt now min max <= max.
Proof.
  intros Hn Hmin Hmm Hmax. unfold RNG.randomInt.
  destruct (hash_on_clock now Hn) as (h & Eh & Hh & _).
  exact (scaleHash_in_range _ h min max Eh Hh Hmin Hmm Hmax).
Qed.

Lemma randomInt_in_range_witness :
  0 <= RNG.randomInt 1700000000000 0 6 <= 6.
Proof. apply (randomInt_in_range 1700000000000 0 6); lia. Defined.

(** C6, the input on which the claim as stated fails: at [min = max = 2^52]
    neighbouring binary64 values are 1 apart; on the clock reading
    1700000000000 the hash is 1515978752, the scale about 0.7, the sum
    [min + scale * 1] is rounded up and the result is [max + 1]. *)
Lemma randomInt_overshoots_at_2_pow_52 :
  4503599627370496 <= 4503599627370496 /\
  (RNG.hash (inject_Z 1700000000000) == inject_Z 1515978752)%Q /\
  0 <= 1515978752 < 2147483648 /\
  RNG.randomInt 1700000000000 4503599627370496 4503599627370496 = 4503599627370497 /\
  ~ (4503599627370496
       <= RNG.randomInt 1700000000000 4503599627370496 4503599627370496
       <= 4503599627370496).
Proof.
  split; [lia |]. split; [vm_compute; reflexivity |]. split; [lia |].
  assert (E : RNG.randomInt 1700000000000 4503599627370496 4503599627370496
              = 4503599627370497) by (vm_compute; reflexivity).
  split; [exact E |]. rewrite E. lia.
Qed.

(** [round64] and the Standard Library's binary64 operations give the same
    hash and the same draw on the sample inputs, among them the clock reading
    230538014, whose hash would be [2^31 - 1] in exact arithmetic and is 0 in
    binary64. *)
Lemma RNG_agrees_with_SpecFloat :
  forallb SpecFloatRNG.agree SpecFloatRNG.samples = true /\
  (RNG.hash (inject_Z 230538014) == 0)%Q.
Proof. split; vm_compute; reflexivity. Qed.

Lemma randomInt_scaleHash (now min max : Z) :
  RNG.randomInt now min max = RNG.scaleHash (RNG.hash (inject_Z now)) min max.
Proof. reflexivity. Qed.

(** From here on the generator is only computed on concrete clock readings
    (by [vm_compute]); on a symbolic one it is used through the lemmas above. *)
Opaque RNG.randomInt.

(** ** The nested [some] of the collision detector *)

Lemma anyM_app {A : Type} (f : A -> option bool) (l1 l2 : list A) :
  anyM f (l1 ++ l2) =
    match anyM f l1 with
    | Some false => anyM f l2
    | r => r
    end.
Proof.
  induction l1 as [| a l1 IH]; simpl; [reflexivity |].
  destruct (f a) as [[|] |]; auto.
Qed.

Lemma anyM_existsb {A : Type} (f : A -> option bool) (p : A -> bool) (l : list A) :
  Forall (fun a => f a = Some (p a)) l ->
  anyM f l = Some (existsb p l).
Proof.
  induction 1 as [| a l Ha _ IH]; simpl; [reflexivity |].
  rewrite Ha. destruct (p a); [reflexivity | exact IH].
Qed.

Lemma anyM_defined {A : Type} (f : A -> option bool) (l : list A) :
  Forall (fun a => exists b, f a = Some b) l ->
  exists b, anyM f l = Some b.
Proof.
  induction 1 as [| a l [b Ha] _ [b' IH]]; simpl; [eauto |].
  rewrite Ha. destruct b; eauto.
Qed.

Lemma anyM_false {A : Type} (f : A -> option bool) (l : list A) :
  anyM f l = Some false -> Forall (fun a => f a = Some false) l.
Proof.
  induction l as [| a l IH]; simpl; intros H; [constructor |].
  destruct (f a) as [[|] |] eqn:E; try discriminate.
  constructor; auto.
Qed.

(** The inner [some] over one shape row visits the filled cells of that row. *)
Lemma some_from_row (Q : Z -> Z -> option bool) (cy : Z) (row : list Z) (i : Z) :
  some_from (fun cell cx => if negb (cell =? 0) then Q cx cy else Some false) i row =
  anyM (fun cell => Q (fst cell) (snd cell))
       (flat_map (fun '(cx, cell) => if cell =? 0 then [] else [(cx, cy)])
                 (indexed_from i row)).
Proof.
  revert i. induction row as [| cell row IH]; intros i; simpl; [reflexivity |].
  destruct (cell =? 0); simpl.
  - apply IH.
  - destruct (Q i cy) as [[|] |]; auto.
Qed.

Lemma some_from_shape (Q : Z -> Z -> option bool) (shape : TetrominoShape) (i : Z) :
  some_from (fun row cy =>
    some_i (fun cell cx => if negb (cell =? 0) then Q cx cy else Some false) row) i shape =
  anyM (fun cell => Q (fst cell) (snd cell))
       (flat_map (fun '(cy, row) =>
          flat_map (fun '(cx, cell) => if cell =? 0 then [] else [(cx, cy)])
                   (indexed_from 0 row))
          (indexed_from i shape)).
Proof.
  revert i. induction shape as [| row shape IH]; intros i; simpl; [reflexivity |].
  rewrite anyM_app. unfold some_i at 1. rewrite some_from_row.
  destruct (anyM _ _) as [[|] |]; auto.
Qed.

(** The nested [some] is a [some] over the filled cells. *)
Lemma nested_some_filled (Q : Z -> Z -> option bool) (shape : TetrominoShape) :
  some_i (fun row cy =>
    some_i (fun cell cx => if negb (cell =? 0) then Q cx cy else Some false) row) shape =
  anyM (fun cell => Q (fst cell) (snd cell)) (filledCells shape).
Proof. apply some_from_shape. Qed.

Lemma collisionDetection_filled (s : State) (t : Tetromino) (shape : TetrominoShape)
    (direction : Direction) :
  currentTetromino s = Some t ->
  activeShape t = Some shape ->
  collisionDetection s direction = anyM (cellCollides (grid s) t direction) (filledCells shape).
Proof.
  intros Hc Hs. unfold collisionDetection, activeShape in *. rewrite Hc, Hs.
  destruct direction.
  - apply (nested_some_filled (fun cx cy => cellCollides (grid s) t LEFT (cx, cy))).
  - apply (nested_some_filled (fun cx cy => cellCollides (grid s) t RIGHT (cx, cy))).
  - apply (nested_some_filled (fun cx cy => cellCollides (grid s) t DOWN (cx, cy))).
  - apply (nested_some_filled (fun cx cy => cellCollides (grid s) t ROTATE (cx, cy))).
Qed.

Lemma collisionDetection_undefined_piece (s : State) (direction : Direction) :
  currentTetromino s = None -> collisionDetection s direction = None.
Proof. intros H. unfold collisionDetection. rewrite H. reflexivity. Qed.

(** Membership in [filledCells], read through the array lookups. *)
Lemma In_indexed_from {A : Type} (l : list A) (i j : Z) (a : A) :
  In (j, a) (indexed_from i l) <-> i <= j /\ nth_error l (Z.to_nat (j - i)) = Some a.
Proof.
  revert i. induction l as [| b l IH]; intros i; simpl.
  - split; [contradiction |]. intros [_ H]. destruct (Z.to_nat (j - i)); discriminate.
  - rewrite IH. split.
    + intros [E | [H1 H2]].
      * injection E as <- <-. rewrite Z.sub_diag. split; [lia | reflexivity].
      * split; [lia |]. replace (Z.to_nat (j - i)) with (S (Z.to_nat (j - (i + 1)))) by lia.
        exact H2.
    + intros [H1 H2]. destruct (Z.eq_dec i j) as [-> | Hne].
      * rewrite Z.sub_diag in H2. simpl in H2. left. congruence.
      * right. split; [lia |].
        replace (Z.to_nat (j - i)) with (S (Z.to_nat (j - (i + 1)))) in H2 by lia.
        exact H2.
Qed.

Lemma In_indexed {A : Type} (l : list A) (j : Z) (a : A) :
  In (j, a) (indexed_from 0 l) <-> lookupZ l j = Some a.
Proof.
  rewrite In_indexed_from, lookupZ_Some, Z.sub_0_r. reflexivity.
Qed.

Lemma In_filledCells (shape : TetrominoShape) (cx cy : Z) :
  In (cx, cy) (filledCells shape) <->
  exists row cell,
    lookupZ shape cy = Some row /\ lookupZ row cx = Some cell /\ cell <> 0.
Proof.
  unfold filledCells. rewrite in_flat_map. split.
  - intros [[cy' row] [H1 H2]]. apply in_flat_map in H2.
    destruct H2 as [[cx' cell] [H2 H3]].
    destruct (cell =? 0) eqn:E; [contradiction |].
    destruct H3 as [H3 | []]. injection H3 as -> ->.
    exists row, cell. rewrite <- !In_indexed. apply Z.eqb_neq in E. auto.
  - intros (row & cell & H1 & H2 & H3).
    exists (cy, row). split; [apply In_indexed; exact H1 |].
    apply in_flat_map. exists (cx, cell). split; [apply In_indexed; exact H2 |].
    apply Z.eqb_neq in H3. rewrite H3. left. reflexivity.
Qed.

(** ** Placement *)

Lemma map_from_length {A B : Type} (f : A -> Z -> option B) (l : list A) :
  forall i l', map_from f i l = Some l' -> length l' = length l.
Proof.
  induction l as [| a l IH]; simpl; intros i l' H.
  - injection H as <-. reflexivity.
  - destruct (f a i); [| discriminate].
    destruct (map_from f (i + 1) l) eqn:E; [| discriminate].
    injection H as <-. simpl. f_equal. eapply IH; eauto.
Qed.

Lemma map_from_Forall {A B : Type} (f : A -> Z -> option B)
    (P : A -> Prop) (Q : B -> Prop) :
  (forall a j b, P a -> f a j = Some b -> Q b) ->
  forall l i l', Forall P l -> map_from f i l = Some l' -> Forall Q l'.
Proof.
  intros H l. induction l as [| a l IH]; simpl; intros i l' HP E.
  - injection E as <-. constructor.
  - inversion HP; subst.
    destruct (f a i) eqn:Ea; [| discriminate].
    destruct (map_from f (i + 1) l) eqn:El; [| discriminate].
    injection E as <-. constructor; eauto.
Qed.

Lemma map_from_defined {A B : Type} (f : A -> Z -> option B) (l : list A) :
  (forall a j, exists b, f a j = Some b) ->
  forall i, exists l', map_from f i l = Some l'.
Proof.
  intros H. induction l as [| a l IH]; simpl; intros i; [eauto |].
  destruct (H a i) as [b ->]. destruct (IH (i + 1)) as [l' ->]. eauto.
Qed.

Lemma map_from_same {A : Type} (f : A -> Z -> option A) (l : list A) :
  (forall a j, f a j = Some a) ->
  forall i, map_from f i l = Some l.
Proof.
  intros H. induction l as [| a l IH]; simpl; intros i; [reflexivity |].
  rewrite H, IH. reflexivity.
Qed.

Lemma placeCell_defined (t : Tetromino) (shape : TetrominoShape)
    (rowIndex colIndex : Z) (cell : GridCell) :
  activeShape t = Some shape ->
  exists cell', placeCell t rowIndex cell colIndex = Some cell'.
Proof.
  unfold activeShape, placeCell. intros ->.
  destruct (rowIndex - y (position t) >=? 0) eqn:E1; [| eauto].
  destruct (rowIndex - y (position t) <? Z.of_nat (length shape)) eqn:E2; [| eauto].
  destruct (colIndex - x (position t) >=? 0); [| eauto].
  apply Z.geb_le in E1. apply Z.ltb_lt in E2.
  destruct (lookupZ_defined shape 0 ltac:(lia)) as [row0 ->].
  destruct (colIndex - x (position t) <? Z.of_nat (length row0)); [| eauto].
  destruct (lookupZ_defined shape (rowIndex - y (position t)) ltac:(lia)) as [shapeRow ->].
  destruct (lookupZ shapeRow (colIndex - x (position t))) as [v |]; [| eauto].
  destruct (v =? 1); eauto.
Qed.

(** A grid row that the bounding box of the shape does not reach is copied. *)
Lemma placeCell_outside (t : Tetromino) (shape : TetrominoShape)
    (rowIndex colIndex : Z) (cell : GridCell) :
  activeShape t = Some shape ->
  rowIndex - y (position t) < 0 \/ Z.of_nat (length shape) <= rowIndex - y (position t) ->
  placeCell t rowIndex cell colIndex = Some cell.
Proof.
  unfold activeShape, placeCell. intros -> H.
  destruct (rowIndex - y (position t) >=? 0) eqn:E1; [| reflexivity].
  destruct (rowIndex - y (position t) <? Z.of_nat (length shape)) eqn:E2; [| reflexivity].
  apply Z.geb_le in E1. apply Z.ltb_lt in E2. lia.
Qed.

Lemma placeTetrominoOnGrid_defined (g : Grid) (t : Tetromino) (shape : TetrominoShape) :
  activeShape t = Some shape ->
  exists placed, placeTetrominoOnGrid g t = Some placed.
Proof.
  intros H. unfold placeTetrominoOnGrid, map_i.
  apply map_from_defined. intros row rowIndex.
  apply map_from_defined. intros cell colIndex.
  eapply placeCell_defined; eauto.
Qed.

Lemma placeTetrominoOnGrid_dims (g placed : Grid) (t : Tetromino) (w : nat) :
  placeTetrominoOnGrid g t = Some placed ->
  length placed = length g /\
  (Forall (fun row => length row = w) g -> Forall (fun row => length row = w) placed).
Proof.
  unfold placeTetrominoOnGrid, map_i. intros H. split.
  - eapply map_from_length; eauto.
  - intros Hw. eapply map_from_Forall; [| exact Hw | exact H].
    intros row j row' Hr E. apply map_from_length in E. congruence.
Qed.

(** ** How many rows a placement can complete *)

(** Rows are copied outside the band [[lo, lo + h)]; with no full row before,
    at most the rows of the band are full afterwards. *)
Lemma full_rows_in_band (f : list GridCell -> Z -> option (list GridCell)) (lo h : Z) :
  0 <= h ->
  (forall row j, j < lo \/ lo + h <= j -> f row j = Some row) ->
  forall (g : Grid) (i : Z) (g' : Grid),
    Forall (fun row => isFull row = false) g ->
    map_from f i g = Some g' ->
    Z.of_nat (fullRows g') <= Z.max 0 (lo + h - Z.max i lo).
Proof.
  intros Hh Hout g. unfold fullRows.
  induction g as [| row g IH]; simpl; intros i g' Hnf E.
  - injection E as <-. simpl. lia.
  - inversion Hnf as [| ? ? Hrow Hrest]; subst.
    destruct (f row i) as [row' |] eqn:Er; [| discriminate].
    destruct (map_from f (i + 1) g) as [rest' |] eqn:Eg; [| discriminate].
    injection E as <-. specialize (IH (i + 1) rest' Hrest Eg). simpl.
    destruct (isFull row') eqn:Ef; simpl.
    + assert (lo <= i < lo + h).
      { destruct (Z_lt_dec i lo) as [L | L];
          [rewrite Hout in Er by lia; congruence |].
        destruct (Z_le_dec (lo + h) i) as [U | U];
          [rewrite Hout in Er by lia; congruence |].
        lia. }
      lia.
    + lia.
Qed.

Lemma placeTetrominoOnGrid_full_rows (g placed : Grid) (t : Tetromino)
    (shape : TetrominoShape) :
  activeShape t = Some shape ->
  Forall (fun row => isFull row = false) g ->
  placeTetrominoOnGrid g t = Some placed ->
  (fullRows placed <= length shape)%nat.
Proof.
  intros Hs Hnf Hp. unfold placeTetrominoOnGrid, map_i in Hp.
  pose proof (full_rows_in_band
    (fun row rowIndex => map_from (placeCell t rowIndex) 0 row)
    (y (position t)) (Z.of_nat (length shape)) ltac:(lia)) as B.
  specialize (B ltac:(intros row j Hj; apply map_from_same; intros cell colIndex;
                      eapply placeCell_outside; [exact Hs | lia])).
  specialize (B g 0 placed Hnf Hp). lia.
Qed.

(** ** Line clearing on a 10 x 20 grid *)

Lemma isFull_empty_row (w : nat) :
  (0 < w)%nat -> isFull (repeat None w) = false.
Proof. destruct w; [lia | reflexivity]. Qed.

Lemma Forall_filter {A : Type} (P : A -> Prop) (f : A -> bool) (l : list A) :
  Forall P l -> Forall P (filter f l).
Proof.
  rewrite !Forall_forall. intros H a Ha. apply filter_In in Ha. apply H, Ha.
Qed.

Lemma Forall_repeat {A : Type} (P : A -> Prop) (a : A) (n : nat) :
  P a -> Forall P (repeat a n).
Proof. intros H. induction n; simpl; constructor; auto. Qed.

Lemma lineClear_dims (placed : Grid) :
  gridDims placed ->
  exists newGrid,
    lineClear placed = Some (newGrid, Z.of_nat (fullRows placed)) /\
    gridDims newGrid /\
    Forall (fun row => isFull row = false) newGrid.
Proof.
  intros [Hl Hw]. destruct placed as [| row0 rest]; [discriminate |].
  rewrite (lineClear_eq (row0 :: rest) row0) by reflexivity.
  assert (W0 : length row0 = 10%nat) by (inversion Hw; assumption).
  rewrite W0. eexists. split; [reflexivity |]. split; [split |].
  - rewrite length_app, repeat_length. unfold fullRows.
    rewrite filter_split_length. exact Hl.
  - apply Forall_app. split.
    + apply Forall_repeat. apply repeat_length.
    + apply Forall_filter. exact Hw.
  - apply Forall_app. split.
    + apply Forall_repeat. reflexivity.
    + apply Forall_forall. intros row Hr. apply filter_In in Hr.
      destruct Hr as [_ Hr]. destruct (isFull row); [discriminate | reflexivity].
Qed.

Lemma topOut_defined (g : Grid) :
  g <> [] -> exists top, topOut g = Some top.
Proof. destruct g; [contradiction |]. intros _. unfold topOut. simpl. eauto. Qed.

(** ** The catalog *)

Lemma catalog_rotations :
  Forall (fun t => In (shapes t) (map shapes Tetrominos) /\
                   0 <= rotation t < Z.of_nat (length (shapes t))) Tetrominos.
Proof.
  unfold Tetrominos.
  repeat (apply Forall_cons;
          [split; [simpl; repeat (first [left; reflexivity | right]) | simpl; lia] |]).
  apply Forall_nil.
Qed.

Lemma catalog_shapes :
  Forall (Forall (fun shape : TetrominoShape =>
                    (length shape <= 4)%nat /\ filledCells shape <> []))
         (map shapes Tetrominos).
Proof.
  repeat constructor; simpl; lia || discriminate.
Qed.

Lemma catalog_lookup (i : Z) (t : Tetromino) :
  lookupZ Tetrominos i = Some t -> catalogPiece t.
Proof.
  intros H. apply lookupZ_In in H.
  exact (proj1 (Forall_forall _ _) catalog_rotations t H).
Qed.

Lemma catalogPieceOpt_lookup (i : Z) : catalogPieceOpt (lookupZ Tetrominos i).
Proof.
  destruct (lookupZ Tetrominos i) eqn:E; simpl; [| exact I].
  eapply catalog_lookup; eauto.
Qed.

Lemma catalogPiece_shape (t : Tetromino) :
  catalogPiece t ->
  exists shape,
    activeShape t = Some shape /\ (length shape <= 4)%nat /\ filledCells shape <> [].
Proof.
  intros [Hin Hrot]. unfold activeShape.
  destruct (lookupZ_defined (shapes t) (rotation t) Hrot) as [shape E].
  exists shape. split; [exact E |].
  apply lookupZ_In in E.
  pose proof (proj1 (Forall_forall _ _) catalog_shapes _ Hin) as F.
  exact (proj1 (Forall_forall _ _) F _ E).
Qed.

(** ** The invariant of the reachable states *)

Lemma Inv_initialState (bootNow1 bootNow2 : Z) : Inv (initialState bootNow1 bootNow2).
Proof.
  constructor; simpl.
  - split; [reflexivity | repeat constructor].
  - repeat constructor.
  - apply catalogPieceOpt_lookup.
  - apply catalogPieceOpt_lookup.
  - exact I.
  - lia.
  - reflexivity.
  - right. split; reflexivity.
Qed.

Lemma placed_dims (g placed : Grid) (t : Tetromino) :
  gridDims g -> placeTetrominoOnGrid g t = Some placed -> gridDims placed.
Proof.
  intros [Hl Hw] Hp.
  destruct (placeTetrominoOnGrid_dims g placed t 10 Hp) as [L W].
  split; [congruence | auto].
Qed.

Lemma moveTetrominoDown_Inv (now : Z) (s s' : State) :
  Inv s -> moveTetrominoDown now s = Some s' -> Inv s'.
Proof.
  intros HI H. destruct HI as [Hd Hnf Hc Hn Hh Hr Hl Hs].
  unfold moveTetrominoDown in H.
  destruct (collisionDetection s DOWN) as [collides |]; [| discriminate].
  destruct (currentTetromino s) as [cur |] eqn:Ec; [| discriminate].
  destruct collides.
  - destruct (placeTetrominoOnGrid (grid s) cur) as [placed |] eqn:Ep; [| discriminate].
    pose proof (placed_dims _ _ _ Hd Ep) as Hpd.
    destruct (lineClear_dims placed Hpd) as (newGrid & El & Hnd & Hnn).
    rewrite El in H.
    destruct (topOut newGrid) as [top |]; [| discriminate].
    injection H as <-. constructor; simpl; auto.
    + apply catalogPieceOpt_lookup.
    + lia.
  - injection H as <-. constructor; simpl; auto.
Qed.

Lemma GameFlow_Inv (bootNow1 bootNow2 now : Z) (s s' : State) :
  Inv s -> GameFlow_apply bootNow1 bootNow2 now s = Some s' -> Inv s'.
Proof.
  intros HI H. unfold GameFlow_apply in H.
  destruct (gameEnd s).
  - injection H as <-.
    destruct (Inv_initialState bootNow1 bootNow2). constructor; simpl; auto.
  - destruct (speedCount s >=? speedMultiplier s).
    + eapply moveTetrominoDown_Inv; eauto.
    + injection H as <-. destruct HI. constructor; simpl; auto.
Qed.

Lemma Move_Inv (direction : Direction) (s s' : State) :
  Inv s -> Move_apply direction s = Some s' -> Inv s'.
Proof.
  intros HI H. unfold Move_apply in H.
  destruct (collisionDetection s direction) as [[|] |]; try discriminate.
  - injection H as <-. exact HI.
  - destruct (currentTetromino s) as [cur |] eqn:Ec; [| discriminate].
    injection H as <-. destruct HI. rewrite Ec in *.
    constructor; simpl; auto.
Qed.

Lemma Rotate_Inv (s s' : State) :
  Inv s -> Rotate_apply s = Some s' -> Inv s'.
Proof.
  intros HI H. unfold Rotate_apply in H.
  destruct (currentTetromino s) as [cur |] eqn:Ec; [| discriminate].
  destruct (collisionDetection _ ROTATE) as [[|] |]; try discriminate;
    injection H as <-; [exact HI |].
  destruct HI as [? ? Hc ? ? ? ? ?]. rewrite Ec in Hc.
  constructor; simpl; auto.
  destruct Hc as [Hin Hrot]. split; simpl; [exact Hin |].
  destruct (rotation cur + 1 <? Z.of_nat (length (shapes cur))) eqn:E.
  - apply Z.ltb_lt in E. lia.
  - lia.
Qed.

Lemma Hold_Inv (now : Z) (s : State) :
  Inv s -> Inv (Hold_apply now s).
Proof.
  intros HI. unfold Hold_apply.
  destruct (usedHold s); [exact HI |].
  destruct HI as [? ? ? ? Hh ? ? ?].
  destruct (heldElement s) as [held |]; constructor; simpl; auto.
  apply catalogPieceOpt_lookup.
Qed.

Lemma Drop_Inv (fuel : nat) (now : Z) :
  forall s s', Inv s -> Drop_apply fuel now s = Some s' -> Inv s'.
Proof.
  induction fuel as [| fuel IH]; simpl; intros s s' HI H; [discriminate |].
  destruct (collisionDetection s DOWN) as [[|] |]; try discriminate.
  - eapply moveTetrominoDown_Inv; eauto.
  - destruct (moveTetrominoDown now s) as [s1 |] eqn:E; [| discriminate].
    eapply IH; [| exact H]. eapply moveTetrominoDown_Inv; eauto.
Qed.

Lemma reduceState_Inv (bootNow1 bootNow2 : Z) (fuel : nat) (now : Z)
    (s s' : State) (action : Action) :
  Inv s -> reduceState bootNow1 bootNow2 fuel now s action = Some s' -> Inv s'.
Proof.
  intros HI H. destruct action; simpl in H.
  - eapply GameFlow_Inv; eauto.
  - eapply moveTetrominoDown_Inv; eauto.
  - eapply Move_Inv; eauto.
  - eapply Rotate_Inv; eauto.
  - eapply Drop_Inv; eauto.
  - injection H as <-. apply Hold_Inv. exact HI.
Qed.

Lemma reachable_Inv (bootNow1 bootNow2 : Z) (s : State) :
  reachable bootNow1 bootNow2 s -> Inv s.
Proof.
  induction 1 as [| s s' action now fuel _ IH H].
  - apply Inv_initialState.
  - eapply reduceState_Inv; eauto.
Qed.

Lemma run_reachable (bootNow1 bootNow2 : Z) (fuel : nat) (script : list (Action * Z)) :
  forall s s',
    reachable bootNow1 bootNow2 s ->
    run bootNow1 bootNow2 fuel script s = Some s' ->
    reachable bootNow1 bootNow2 s'.
Proof.
  induction script as [| [action now] script IH]; simpl; intros s s' Hr H.
  - injection H as <-. exact Hr.
  - destruct (reduceState bootNow1 bootNow2 fuel now s action) as [s1 |] eqn:E;
      [| discriminate].
    eapply IH; [| exact H]. eapply reachable_step; eauto.
Qed.

(** ** Invariants of play *)

(** C5. For every state reachable from the initial state by any finite
    sequence of the six actions, the grid has exactly 20 rows and every row
    has exactly 10 cells. *)
Theorem grid_dimension_invariant (bootNow1 bootNow2 : Z) (s : State) :
  reachable bootNow1 bootNow2 s ->
  length (grid s) = 20%nat /\
  Forall (fun row => length row = 10%nat) (grid s).
Proof.
  intros H. exact (inv_dims s (reachable_Inv _ _ s H)).
Qed.

Lemma grid_dimension_invariant_witness :
  exists s,
    reduceState 0 0 20 0 (initialState 0 0) Drop = Some s /\
    length (grid s) = 20%nat /\
    Forall (fun row => length row = 10%nat) (grid s).
Proof.
  destruct (reduceState 0 0 20 0 (initialState 0 0) Drop) as [s |] eqn:E;
    [| exfalso; revert E; vm_compute; discriminate].
  exists s. split; [reflexivity |].
  apply (grid_dimension_invariant 0 0 s).
  eapply reachable_step; [apply reachable_init | exact E].
Defined.

(** C7 (as amended). For every reachable state, [level] is
    [1 + floor(rowsCleared / 3)] and [speedMultiplier] is 10 (before the first
    placement of a game) or [10 - level]; no floor is applied, so
    [speedMultiplier] is at least 1 exactly as long as fewer than 27 rows have
    been cleared in the game. *)
Theorem speedMultiplier_positive_below_27_rows (bootNow1 bootNow2 : Z) (s : State) :
  reachable bootNow1 bootNow2 s ->
  level s = 1 + rowsCleared s / 3 /\
  (speedMultiplier s = 10 \/ speedMultiplier s = 10 - level s) /\
  (1 <= speedMultiplier s <-> rowsCleared s < 27).
Proof.
  intros H. destruct (reachable_Inv _ _ s H) as [_ _ _ _ _ Hr Hl Hs].
  unfold Constants.MULTIPLIER in Hs.
  split; [exact Hl |]. split; [tauto |].
  rewrite Hl in Hs. Z.div_mod_to_equations. lia.
Qed.

Lemma speedMultiplier_positive_below_27_rows_witness :
  exists s,
    reduceState 0 0 20 0 (initialState 0 0) Drop = Some s /\
    level s = 1 + rowsCleared s / 3 /\
    (speedMultiplier s = 10 \/ speedMultiplier s = 10 - level s) /\
    (1 <= speedMultiplier s <-> rowsCleared s < 27).
Proof.
  destruct (reduceState 0 0 20 0 (initialState 0 0) Drop) as [s |] eqn:E;
    [| exfalso; revert E; vm_compute; discriminate].
  exists s. split; [reflexivity |].
  apply (speedMultiplier_positive_below_27_rows 0 0 s).
  eapply reachable_step; [apply reachable_init | exact E].
Defined.

(** C7, the play on which the claim as stated fails: fourteen rounds of five
    squares clear 28 rows, the level is 10 and [speedMultiplier] is 0. *)
Lemma speedMultiplier_reaches_zero :
  exists s,
    run 0 0 20 (squareScript 14) (initialState 0 0) = Some s /\
    reachable 0 0 s /\
    rowsCleared s = 28 /\
    level s = 10 /\
    speedMultiplier s = 0.
Proof.
  destruct (run 0 0 20 (squareScript 14) (initialState 0 0)) as [s |] eqn:E;
    [| exfalso; revert E; vm_compute; discriminate].
  exists s. split; [reflexivity |]. split.
  - eapply run_reachable; [apply reachable_init | exact E].
  - assert (F : option_map (fun st => (rowsCleared st, level st, speedMultiplier st))
                  (run 0 0 20 (squareScript 14) (initialState 0 0))
                = Some (28, 10, 0)) by (vm_compute; reflexivity).
    rewrite E in F. simpl in F. injection F as -> -> ->. auto.
Qed.

(** C9. For every reachable state, placing the current piece and clearing
    lines, as [moveTetrominoDown] does when it locks, clears at most 4 rows:
    the value handed from [lineClear] to [calculateScore] is in [0,4], so the
    lookup [scores[rowsCleared - 1]] stays inside the table and the score is a
    number. *)
Theorem at_most_four_rows_cleared (bootNow1 bootNow2 : Z) (s : State) (t : Tetromino) :
  reachable bootNow1 bootNow2 s ->
  currentTetromino s = Some t ->
  exists placed newGrid cleared,
    placeTetrominoOnGrid (grid s) t = Some placed /\
    lineClear placed = Some (newGrid, cleared) /\
    0 <= cleared <= 4 /\
    (cleared = 0 \/ exists points, lookupZ scores (cleared - 1) = Some points) /\
    exists points, calculateScore (level s) cleared = Num points.
Proof.
  intros H Ec. destruct (reachable_Inv _ _ s H) as [Hd Hnf Hc _ _ _ _ _].
  rewrite Ec in Hc. destruct (catalogPiece_shape t Hc) as (shape & Hs & Hh & _).
  destruct (placeTetrominoOnGrid_defined (grid s) t shape Hs) as [placed Ep].
  destruct (lineClear_dims placed (placed_dims _ _ _ Hd Ep)) as (newGrid & El & _).
  pose proof (placeTetrominoOnGrid_full_rows _ _ _ _ Hs Hnf Ep) as B.
  exists placed, newGrid, (Z.of_nat (fullRows placed)).
  split; [exact Ep |]. split; [exact El |].
  assert (R : 0 <= Z.of_nat (fullRows placed) <= 4) by lia.
  split; [exact R |].
  assert (C : Z.of_nat (fullRows placed) = 0 \/ Z.of_nat (fullRows placed) = 1 \/
              Z.of_nat (fullRows placed) = 2 \/ Z.of_nat (fullRows placed) = 3 \/
              Z.of_nat (fullRows placed) = 4) by lia.
  destruct C as [-> | [-> | [-> | [-> | ->]]]]; (split; [| eexists; reflexivity]);
    (left; reflexivity) || (right; eexists; reflexivity).
Qed.

Lemma at_most_four_rows_cleared_witness :
  exists placed newGrid cleared,
    placeTetrominoOnGrid (grid (initialState 0 0)) O_TETROMINO = Some placed /\
    lineClear placed = Some (newGrid, cleared) /\
    0 <= cleared <= 4 /\
    (cleared = 0 \/ exists points, lookupZ scores (cleared - 1) = Some points) /\
    exists points, calculateScore (level (initialState 0 0)) cleared = Num points.
Proof.
  apply (at_most_four_rows_cleared 0 0 (initialState 0 0) O_TETROMINO).
  - apply reachable_init.
  - reflexivity.
Defined.

(** ** Game over *)

(** C4. For every state [s] with [gameEnd = true], the Tick action returns the
    initial state in every field except [highScore], which is the greater of
    [s.score] and [s.highScore]; in particular the grid is all-empty, the
    score is 0, the level is 1, nothing is held and [usedHold] is false. *)
Theorem GameFlow_resets_after_gameEnd (bootNow1 bootNow2 now : Z) (s : State) :
  gameEnd s = true ->
  let fresh := withHighScore (initialState bootNow1 bootNow2)
                             (greaterScore (score s) (highScore s)) in
  GameFlow_apply bootNow1 bootNow2 now s = Some fresh /\
  grid fresh = repeat (repeat None 10) 20 /\
  score fresh = Num 0 /\
  level fresh = 1 /\
  heldElement fresh = None /\
  usedHold fresh = false.
Proof.
  intros H fresh. split; [| repeat split].
  unfold GameFlow_apply. rewrite H. subst fresh. unfold withHighScore. simpl.
  do 2 f_equal. unfold greaterScore. destruct (score s) as [p |]; [| reflexivity].
  destruct (p >? highScore s) eqn:E.
  - apply Z.gtb_lt in E. lia.
  - rewrite Z.gtb_ltb in E. apply Z.ltb_ge in E. lia.
Qed.

Lemma GameFlow_resets_after_gameEnd_witness :
  let s := {|
    currentTetromino := Some (movedDown T_TETROMINO);
    nextTetromino := Some I_TETROMINO;
    heldElement := Some O_TETROMINO;
    grid := repeat (repeat (Some "red"%string) 9 ++ [None]) 20;
    score := Num 500;
    level := 4;
    highScore := 300;
    gameEnd := true;
    speedMultiplier := 6;
    speedCount := 2;
    rowsCleared := 10;
    usedHold := true
  |} in
  GameFlow_apply 0 0 0 s = Some (withHighScore (initialState 0 0) 500).
Proof.
  intros s.
  exact (proj1 (GameFlow_resets_after_gameEnd 0 0 0 s eq_refl)).
Defined.

(** ** Rotation *)

Lemma gridAt_occupiedAt (g : Grid) (r c : Z) :
  0 <= r < Z.of_nat (length g) ->
  gridAt g r c = Some (occupiedAt g c r).
Proof.
  intros H. unfold gridAt, occupiedAt.
  destruct (lookupZ_defined g r H) as [gridRow ->]. reflexivity.
Qed.

Lemma cellCollides_ROTATE (g : Grid) (t : Tetromino) (cell : Z * Z) :
  length g = 20%nat ->
  cellCollides g t ROTATE cell =
    Some (negb (insideGrid t cell) || occupiedAt g (cellX t cell) (cellY t cell)).
Proof.
  intros Hl. unfold cellCollides, insideGrid.
  change (Viewport.CANVAS_HEIGHT / Block.HEIGHT) with 20.
  change (Viewport.CANVAS_WIDTH / Block.WIDTH) with 10.
  rewrite Z.geb_leb, (Z.geb_leb (cellX t cell)).
  destruct (Z.ltb_spec (cellY t cell) 0), (Z.leb_spec 20 (cellY t cell)),
           (Z.ltb_spec (cellX t cell) 0), (Z.leb_spec 10 (cellX t cell)),
           (Z.leb_spec 0 (cellX t cell)), (Z.ltb_spec (cellX t cell) 10),
           (Z.leb_spec 0 (cellY t cell)), (Z.ltb_spec (cellY t cell) 20);
    try lia; try reflexivity.
  simpl. apply gridAt_occupiedAt. lia.
Qed.

(** C8. The Rotate action looks at the next shape of the piece,
    [shapes[(rotation + 1) mod shapes.length]], at the unchanged position: if
    one of its filled cells is outside [0,10) x [0,20) or on an occupied grid
    cell, the state is returned unchanged; otherwise only the rotation of the
    current piece changes, to that next index. No other position is tried. *)
Theorem Rotate_advances_or_keeps (s : State) (t : Tetromino) :
  currentTetromino s = Some t ->
  0 <= rotation t < Z.of_nat (length (shapes t)) ->
  length (grid s) = 20%nat ->
  let newRotation := (rotation t + 1) mod Z.of_nat (length (shapes t)) in
  exists candidate,
    lookupZ (shapes t) newRotation = Some candidate /\
    Rotate_apply s =
      Some (if blocked (grid s) t candidate then s
            else withCurrent s (withRotation t newRotation)).
Proof.
  intros Ec Hr Hl newRotation.
  assert (Hn : (if rotation t + 1 <? Z.of_nat (length (shapes t))
                then rotation t + 1 else 0) = newRotation).
  { subst newRotation.
    destruct (Z.ltb_spec (rotation t + 1) (Z.of_nat (length (shapes t)))).
    - symmetry. apply Z.mod_small. lia.
    - replace (rotation t + 1) with (Z.of_nat (length (shapes t))) by lia.
      symmetry. apply Z_mod_same_full. }
  assert (Hb : 0 <= newRotation < Z.of_nat (length (shapes t)))
    by (apply Z.mod_pos_bound; lia).
  destruct (lookupZ_defined (shapes t) newRotation Hb) as [candidate Hc].
  exists candidate. split; [exact Hc |].
  unfold Rotate_apply. rewrite Ec, Hn.
  fold (withRotation t newRotation).
  rewrite (collisionDetection_filled _ (withRotation t newRotation) candidate ROTATE)
    by (reflexivity || exact Hc).
  rewrite (anyM_existsb _
    (fun cell => negb (insideGrid t cell)
                 || occupiedAt (grid s) (cellX t cell) (cellY t cell))).
  - fold (blocked (grid s) t candidate).
    destruct (blocked (grid s) t candidate); reflexivity.
  - apply Forall_forall. intros cell _.
    apply (cellCollides_ROTATE (grid s) (withRotation t newRotation) cell Hl).
Qed.

Lemma Rotate_advances_or_keeps_witness :
  let wall := withCurrent (initialState 0 0)
                (mkTetromino (shapes I_TETROMINO) (mkPosition 9 0) "cyan"%string 0) in
  Rotate_apply wall = Some wall.
Proof.
  intros wall.
  destruct (Rotate_advances_or_keeps wall
              (mkTetromino (shapes I_TETROMINO) (mkPosition 9 0) "cyan"%string 0)
              eq_refl ltac:(simpl; lia) eq_refl) as (candidate & Hc & Hr).
  vm_compute in Hc. injection Hc as <-. exact Hr.
Defined.

(** ** Horizontal collisions *)

Lemma insideRows_spec (t : Tetromino) (cell : Z * Z) :
  insideRows t cell = true <-> 0 <= cellY t cell < 20.
Proof.
  unfold insideRows. rewrite andb_true_iff, Z.leb_le, Z.ltb_lt. tauto.
Qed.

Lemma insideGrid_spec (t : Tetromino) (cell : Z * Z) :
  insideGrid t cell = true <->
  (0 <= cellX t cell < 10) /\ (0 <= cellY t cell < 20).
Proof.
  unfold insideGrid. rewrite !andb_true_iff, !Z.leb_le, !Z.ltb_lt. tauto.
Qed.

(** [blocked], read through the array lookups of the shape. *)
Lemma blocked_spec (g : Grid) (t : Tetromino) (shape : TetrominoShape) :
  blocked g t shape = true <->
  exists cx cy row cell,
    lookupZ shape cy = Some row /\ lookupZ row cx = Some cell /\ cell <> 0 /\
    (~ (0 <= x (position t) + cx < 10 /\ 0 <= y (position t) + cy < 20) \/
     occupiedAt g (x (position t) + cx) (y (position t) + cy) = true).
Proof.
  unfold blocked. rewrite existsb_exists. split.
  - intros [[cx cy] [Hin Hb]]. apply In_filledCells in Hin.
    destruct Hin as (row & cell & H1 & H2 & H3).
    exists cx, cy, row, cell. repeat split; auto.
    apply orb_true_iff in Hb. destruct Hb as [Hb | Hb]; [left | right; exact Hb].
    intros Hi. apply (insideGrid_spec t (cx, cy)) in Hi.
    rewrite Hi in Hb. discriminate.
  - intros (cx & cy & row & cell & H1 & H2 & H3 & Hb).
    exists (cx, cy). split; [apply In_filledCells; eauto |].
    apply orb_true_iff. destruct Hb as [Hb | Hb]; [left | right; exact Hb].
    destruct (insideGrid t (cx, cy)) eqn:E; [| reflexivity].
    apply insideGrid_spec in E. contradiction.
Qed.

Lemma cellCollides_horizontal_defined (g : Grid) (t : Tetromino) (cell : Z * Z) :
  length g = 20%nat ->
  0 <= cellY t cell < 20 ->
  (exists b, cellCollides g t LEFT cell = Some b) /\
  (exists b, cellCollides g t RIGHT cell = Some b).
Proof.
  intros Hl Hy. unfold cellCollides.
  split.
  - destruct (cellX t cell - 1 <? 0); [eauto |].
    rewrite gridAt_occupiedAt by lia. eauto.
  - destruct (cellX t cell + 1 >=? Viewport.CANVAS_WIDTH / Block.WIDTH); [eauto |].
    rewrite gridAt_occupiedAt by lia. eauto.
Qed.

(** C10. The LEFT and RIGHT cases read the grid row [position.y + y] of every
    filled cell they visit, without a vertical check. When each filled cell of
    the active shape lies in rows [0,20) of a grid of 20 rows, each of these
    rows exists and both cases return a boolean: the throw of the row lookup
    is not reached. *)
Theorem horizontal_collision_in_bounds (s : State) (t : Tetromino)
    (shape : TetrominoShape) :
  currentTetromino s = Some t ->
  activeShape t = Some shape ->
  length (grid s) = 20%nat ->
  forallb (insideRows t) (filledCells shape) = true ->
  (exists b, collisionDetection s LEFT = Some b) /\
  (exists b, collisionDetection s RIGHT = Some b) /\
  Forall (fun cell => exists gridRow, lookupZ (grid s) (cellY t cell) = Some gridRow)
         (filledCells shape).
Proof.
  intros Ec Hs Hl Hin. rewrite forallb_forall in Hin.
  rewrite !(collisionDetection_filled s t shape) by assumption.
  split; [| split].
  - apply anyM_defined. apply Forall_forall. intros cell Hc.
    apply (cellCollides_horizontal_defined (grid s) t cell Hl).
    apply insideRows_spec, Hin, Hc.
  - apply anyM_defined. apply Forall_forall. intros cell Hc.
    apply (cellCollides_horizontal_defined (grid s) t cell Hl).
    apply insideRows_spec, Hin, Hc.
  - apply Forall_forall. intros cell Hc.
    apply lookupZ_defined. apply Hin, insideRows_spec in Hc. lia.
Qed.

Lemma horizontal_collision_in_bounds_witness :
  (exists b, collisionDetection (initialState 0 0) LEFT = Some b) /\
  (exists b, collisionDetection (initialState 0 0) RIGHT = Some b) /\
  Forall (fun cell => exists gridRow,
            lookupZ (grid (initialState 0 0)) (cellY O_TETROMINO cell) = Some gridRow)
         (filledCells [[1; 1]; [1; 1]]).
Proof.
  exact (horizontal_collision_in_bounds (initialState 0 0) O_TETROMINO
           [[1; 1]; [1; 1]] eq_refl eq_refl eq_refl eq_refl).
Defined.

(** Without the precondition the vertical check is missed: for a piece placed
    below the grid the LEFT and RIGHT cases throw, the DOWN and ROTATE cases
    answer. *)
Lemma horizontal_collision_below_grid :
  let low := withCurrent (initialState 0 0)
               (mkTetromino (shapes O_TETROMINO) (mkPosition 4 20) "yellow"%string 0) in
  collisionDetection low LEFT = None /\
  collisionDetection low RIGHT = None /\
  collisionDetection low DOWN = Some true /\
  collisionDetection low ROTATE = Some true.
Proof. repeat split. Qed.

(** ** Hard drop *)

Lemma cellCollides_DOWN_defined (g : Grid) (t : Tetromino) (cell : Z * Z) :
  length g = 20%nat ->
  0 <= cellY t cell < 20 ->
  exists b, cellCollides g t DOWN cell = Some b.
Proof.
  intros Hl Hy. unfold cellCollides.
  change Block.HEIGHT with 20. change Viewport.CANVAS_HEIGHT with 400.
  rewrite Z.geb_leb.
  destruct (Z.leb_spec 400 ((cellY t cell + 1) * 20)); [eauto |].
  rewrite gridAt_occupiedAt by lia. eauto.
Qed.

Lemma cellCollides_DOWN_false (g : Grid) (t : Tetromino) (cell : Z * Z) :
  cellCollides g t DOWN cell = Some false -> cellY t cell + 1 < 20.
Proof.
  unfold cellCollides.
  change Block.HEIGHT with 20. change Viewport.CANVAS_HEIGHT with 400.
  rewrite Z.geb_leb.
  destruct (Z.leb_spec 400 ((cellY t cell + 1) * 20)); [discriminate | lia].
Qed.

Lemma moveTetrominoDown_moves (now : Z) (s : State) (t : Tetromino) :
  collisionDetection s DOWN = Some false ->
  currentTetromino s = Some t ->
  exists s1,
    moveTetrominoDown now s = Some s1 /\
    currentTetromino s1 = Some (movedDown t) /\
    grid s1 = grid s.
Proof.
  intros Hc Ec. unfold moveTetrominoDown. rewrite Hc, Ec.
  eexists. split; [reflexivity |]. split; reflexivity.
Qed.

Lemma moveTetrominoDown_locks (now : Z) (s : State) (t : Tetromino)
    (shape : TetrominoShape) :
  collisionDetection s DOWN = Some true ->
  currentTetromino s = Some t ->
  activeShape t = Some shape ->
  gridDims (grid s) ->
  exists s', moveTetrominoDown now s = Some s'.
Proof.
  intros Hc Ec Hs Hd. unfold moveTetrominoDown. rewrite Hc, Ec.
  destruct (placeTetrominoOnGrid_defined (grid s) t shape Hs) as [placed Ep].
  rewrite Ep.
  destruct (lineClear_dims placed (placed_dims _ _ _ Hd Ep)) as (newGrid & El & [Hn _] & _).
  rewrite El.
  destruct (topOut_defined newGrid) as [top Et].
  - destruct newGrid; [discriminate | discriminate].
  - rewrite Et. eauto.
Qed.

(** The descent, followed along one filled cell [anchor] of the shape: the
    rows left below that cell bound the number of steps. *)
Lemma Drop_descent_bounded (now : Z) (shape : TetrominoShape) (anchor : Z * Z) :
  In anchor (filledCells shape) ->
  forall (fuel : nat) (s : State) (t : Tetromino),
    currentTetromino s = Some t ->
    activeShape t = Some shape ->
    forallb (insideGrid t) (filledCells shape) = true ->
    gridDims (grid s) ->
    19 - cellY t anchor < Z.of_nat fuel ->
    exists (n : nat) (pre : State) (tpre : Tetromino) (s' : State),
      Drop_descent fuel now s = Some (n, pre) /\
      Z.of_nat n <= 19 - cellY t anchor /\
      collisionDetection pre DOWN = Some true /\
      currentTetromino pre = Some tpre /\
      y (position tpre) = y (position t) + Z.of_nat n /\
      moveTetrominoDown now pre = Some s' /\
      Drop_apply fuel now s = Some s'.
Proof.
  intros Ha fuel. induction fuel as [| fuel IH]; intros s t Ec Hs Hin Hd Hm.
  - rewrite forallb_forall in Hin. apply Hin, insideGrid_spec in Ha. lia.
  - pose proof Hin as Hin'. rewrite forallb_forall in Hin'.
    assert (Hdef : exists b, collisionDetection s DOWN = Some b).
    { rewrite (collisionDetection_filled s t shape DOWN Ec Hs).
      apply anyM_defined, Forall_forall. intros cell Hc.
      apply cellCollides_DOWN_defined; [apply Hd |].
      apply Hin', insideGrid_spec in Hc. lia. }
    destruct Hdef as [[|] Hcol].
    + destruct (moveTetrominoDown_locks now s t shape Hcol Ec Hs Hd) as [s' Hlock].
      exists O, s, t, s'. cbn [Drop_descent Drop_apply]. rewrite Hcol.
      apply Hin', insideGrid_spec in Ha.
      repeat split; auto; lia.
    + destruct (moveTetrominoDown_moves now s t Hcol Ec) as (s1 & Hmove & Ec1 & Eg1).
      assert (Hfalse : Forall (fun cell => cellCollides (grid s) t DOWN cell = Some false)
                              (filledCells shape)).
      { apply anyM_false. rewrite <- (collisionDetection_filled s t shape DOWN Ec Hs).
        exact Hcol. }
      rewrite Forall_forall in Hfalse.
      assert (Hin1 : forallb (insideGrid (movedDown t)) (filledCells shape) = true).
      { apply forallb_forall. intros cell Hc. apply insideGrid_spec.
        pose proof (proj1 (insideGrid_spec t cell) (Hin' cell Hc)) as B.
        pose proof (cellCollides_DOWN_false _ _ _ (Hfalse cell Hc)) as F.
        unfold cellX, cellY in *. cbn [movedDown position x y]. lia. }
      assert (Hd1 : gridDims (grid s1)) by (rewrite Eg1; exact Hd).
      assert (Hm1 : 19 - cellY (movedDown t) anchor < Z.of_nat fuel)
        by (unfold cellY in *; cbn [movedDown position y]; lia).
      destruct (IH s1 (movedDown t) Ec1 Hs Hin1 Hd1 Hm1)
        as (n & pre & tpre & s' & Hdesc & Hn & Hpre & Etpre & Hy & Hlock & Hdrop).
      exists (S n), pre, tpre, s'. cbn [Drop_descent Drop_apply].
      rewrite Hcol, Hmove, Hdesc.
      unfold cellY in *. cbn [movedDown position y] in *.
      repeat split; auto; lia.
Qed.

(** C3. For every state whose current tetromino has all its filled cells
    inside the 10 x 20 grid, the hard drop ends within 20 calls of the
    down-step: it moves the piece down [n] rows, [n + 1 <= 20], reaches a
    state [pre] with [collisionDetection(pre, DOWN) = true], and its last
    down-step locks the piece there. Each move takes the piece one row
    closer to the floor. *)
Theorem Drop_terminates_within_grid_height (now : Z) (s : State) (t : Tetromino)
    (shape : TetrominoShape) :
  currentTetromino s = Some t ->
  activeShape t = Some shape ->
  filledCells shape <> [] ->
  forallb (insideGrid t) (filledCells shape) = true ->
  gridDims (grid s) ->
  exists (n : nat) (pre : State) (tpre : Tetromino) (s' : State),
    Drop_descent 20 now s = Some (n, pre) /\
    (n + 1 <= 20)%nat /\
    collisionDetection pre DOWN = Some true /\
    currentTetromino pre = Some tpre /\
    y (position tpre) = y (position t) + Z.of_nat n /\
    moveTetrominoDown now pre = Some s' /\
    Drop_apply 20 now s = Some s'.
Proof.
  intros Ec Hs Hne Hin Hd.
  destruct (filledCells shape) as [| anchor rest] eqn:Ef; [contradiction |].
  assert (Ha : In anchor (filledCells shape)) by (rewrite Ef; left; reflexivity).
  rewrite <- Ef in Hin.
  pose proof Hin as Hin'. rewrite forallb_forall in Hin'.
  pose proof (proj1 (insideGrid_spec t anchor) (Hin' anchor Ha)) as B.
  destruct (Drop_descent_bounded now shape anchor Ha 20 s t Ec Hs Hin Hd ltac:(lia))
    as (n & pre & tpre & s' & Hdesc & Hn & Hpre & Etpre & Hy & Hlock & Hdrop).
  exists n, pre, tpre, s'. repeat split; auto; lia.
Qed.

Lemma Drop_terminates_within_grid_height_witness :
  exists (n : nat) (pre : State) (tpre : Tetromino) (s' : State),
    Drop_descent 20 0 (initialState 0 0) = Some (n, pre) /\
    (n + 1 <= 20)%nat /\
    collisionDetection pre DOWN = Some true /\
    currentTetromino pre = Some tpre /\
    y (position tpre) = y (position O_TETROMINO) + Z.of_nat n /\
    moveTetrominoDown 0 pre = Some s' /\
    Drop_apply 20 0 (initialState 0 0) = Some s'.
Proof.
  apply (Drop_terminates_within_grid_height 0 (initialState 0 0) O_TETROMINO
           [[1; 1]; [1; 1]]).
  - reflexivity.
  - reflexivity.
  - discriminate.
  - reflexivity.
  - split; [reflexivity | repeat constructor].
Defined.

(** The budget is only a bound: a result found within it is the result under
    every larger one. *)
Lemma Drop_apply_more_fuel (now : Z) (fuel : nat) :
  forall (extra : nat) (s s' : State),
    Drop_apply fuel now s = Some s' ->
    Drop_apply (fuel + extra) now s = Some s'.
Proof.
  induction fuel as [| fuel IH]; intros extra s s' H; [discriminate |].
  cbn [Drop_apply Nat.add] in *.
  destruct (collisionDetection s DOWN) as [[|] |]; try discriminate; [exact H |].
  destruct (moveTetrominoDown now s) as [s1 |]; [| discriminate].
  apply IH. exact H.
Qed.

(** Every catalog piece has a filled cell, so the hard drop of a catalog piece
    inside the grid is covered. *)
Lemma catalogPiece_has_cells (t : Tetromino) (shape : TetrominoShape) :
  catalogPiece t -> activeShape t = Some shape -> filledCells shape <> [].
Proof.
  intros Hc Hs. destruct (catalogPiece_shape t Hc) as (shape' & Hs' & _ & Hne).
  congruence.
Qed.

(** The filled cell is what stops the descent: a shape table without any
    filled cell (which no tetromino has) never collides, and its hard drop
    exhausts every budget. *)
Lemma Drop_empty_shape_diverges (now : Z) (fuel : nat) :
  forall (s : State) (t : Tetromino) (shape : TetrominoShape),
    currentTetromino s = Some t ->
    activeShape t = Some shape ->
    filledCells shape = [] ->
    Drop_apply fuel now s = None.
Proof.
  induction fuel as [| fuel IH]; intros s t shape Ec Hs He; [reflexivity |].
  cbn [Drop_apply].
  assert (Hcol : collisionDetection s DOWN = Some false)
    by (rewrite (collisionDetection_filled s t shape DOWN Ec Hs), He; reflexivity).
  rewrite Hcol.
  destruct (moveTetrominoDown_moves now s t Hcol Ec) as (s1 & Hmove & Ec1 & _).
  rewrite Hmove. apply (IH s1 (movedDown t) shape Ec1 Hs He).
Qed.

(** ** Further checks from the specification *)

(** A piece whose lowest filled cell is in row 19 collides downwards; one row
    higher, with row 19 clear, it does not. *)
Lemma collision_at_floor :
  let at_row (r : Z) :=
    withCurrent (initialState 0 0)
      (mkTetromino (shapes O_TETROMINO) (mkPosition 4 r) "yellow"%string 0) in
  collisionDetection (at_row 18) DOWN = Some true /\
  collisionDetection (at_row 17) DOWN = Some false.
Proof. split; reflexivity. Qed.

(** Hold is used once per piece: a second Hold leaves the state it finds. *)
Lemma Hold_twice (now1 now2 : Z) (s : State) :
  Hold_apply now2 (Hold_apply now1 s) = Hold_apply now1 s.
Proof.
  assert (H : usedHold (Hold_apply now1 s) = true).
  { unfold Hold_apply. destruct (usedHold s) eqn:E; [exact E |].
    destruct (heldElement s); reflexivity. }
  unfold Hold_apply at 1. rewrite H. reflexivity.
Qed.

(** * Further properties of the engine *)

(** ** The collision detector, direction by direction *)

Lemma insideCell_spec (c r : Z) :
  insideCell c r = true <-> (0 <= c < 10) /\ (0 <= r < 20).
Proof.
  unfold insideCell. rewrite !andb_true_iff, !Z.leb_le, !Z.ltb_lt. tauto.
Qed.

Lemma cellCollides_target (g : Grid) (t : Tetromino) (direction : Direction)
    (cell : Z * Z) :
  length g = 20%nat ->
  insideGrid t cell = true ->
  cellCollides g t direction cell =
    Some (negb (insideCell (fst (moveTarget direction t cell))
                           (snd (moveTarget direction t cell)))
          || occupiedAt g (fst (moveTarget direction t cell))
                          (snd (moveTarget direction t cell))).
Proof.
  intros Hl Hin. apply insideGrid_spec in Hin. destruct Hin as [Hx Hy].
  destruct direction; cbn [moveTarget fst snd].
  - unfold cellCollides.
    destruct (Z.ltb_spec (cellX t cell - 1) 0) as [L | L].
    + replace (insideCell (cellX t cell - 1) (cellY t cell)) with false; [reflexivity |].
      symmetry. apply not_true_is_false. rewrite insideCell_spec. lia.
    + replace (insideCell (cellX t cell - 1) (cellY t cell)) with true
        by (symmetry; apply insideCell_spec; lia).
      apply gridAt_occupiedAt. lia.
  - unfold cellCollides. change (Viewport.CANVAS_WIDTH / Block.WIDTH) with 10.
    rewrite Z.geb_leb.
    destruct (Z.leb_spec 10 (cellX t cell + 1)) as [L | L].
    + replace (insideCell (cellX t cell + 1) (cellY t cell)) with false; [reflexivity |].
      symmetry. apply not_true_is_false. rewrite insideCell_spec. lia.
    + replace (insideCell (cellX t cell + 1) (cellY t cell)) with true
        by (symmetry; apply insideCell_spec; lia).
      apply gridAt_occupiedAt. lia.
  - unfold cellCollides.
    change Block.HEIGHT with 20. change Viewport.CANVAS_HEIGHT with 400.
    rewrite Z.geb_leb.
    destruct (Z.leb_spec 400 ((cellY t cell + 1) * 20)) as [L | L].
    + replace (insideCell (cellX t cell) (cellY t cell + 1)) with false; [reflexivity |].
      symmetry. apply not_true_is_false. rewrite insideCell_spec. lia.
    + replace (insideCell (cellX t cell) (cellY t cell + 1)) with true
        by (symmetry; apply insideCell_spec; lia).
      apply gridAt_occupiedAt. lia.
  - rewrite (cellCollides_ROTATE g t cell Hl). unfold insideGrid, insideCell.
    reflexivity.
Qed.

Lemma collisionDetection_existsb (s : State) (t : Tetromino)
    (shape : TetrominoShape) (direction : Direction) :
  currentTetromino s = Some t ->
  activeShape t = Some shape ->
  length (grid s) = 20%nat ->
  forallb (insideGrid t) (filledCells shape) = true ->
  collisionDetection s direction = Some (moveBlocked (grid s) t direction shape).
Proof.
  intros Ec Hs Hl Hin. rewrite forallb_forall in Hin.
  rewrite (collisionDetection_filled s t shape direction Ec Hs).
  unfold moveBlocked. apply anyM_existsb. apply Forall_forall. intros cell Hc.
  apply cellCollides_target; auto.
Qed.

Lemma existsb_false {A : Type} (p : A -> bool) (l : list A) :
  existsb p l = false <-> forall a, In a l -> p a = false.
Proof.
  induction l as [| b l IH]; simpl.
  - split; [contradiction | reflexivity].
  - rewrite orb_false_iff, IH. split.
    + intros [H1 H2] a [<- | Ha]; auto.
    + intros H. split; auto.
Qed.

Lemma moveBlocked_false (g : Grid) (t : Tetromino) (direction : Direction)
    (shape : TetrominoShape) :
  moveBlocked g t direction shape = false <->
  forall cell, In cell (filledCells shape) ->
    insideCell (fst (moveTarget direction t cell)) (snd (moveTarget direction t cell)) = true /\
    occupiedAt g (fst (moveTarget direction t cell)) (snd (moveTarget direction t cell)) = false.
Proof.
  unfold moveBlocked. rewrite existsb_false.
  split; intros H cell Hc; specialize (H cell Hc); cbv zeta in *.
  - apply orb_false_iff in H. destruct H as [H1 H2].
    apply negb_false_iff in H1. auto.
  - destruct H as [H1 H2]. rewrite H1, H2. reflexivity.
Qed.

Lemma blocked_false (g : Grid) (t : Tetromino) (shape : TetrominoShape) :
  blocked g t shape = false <->
  forall cell, In cell (filledCells shape) ->
    insideGrid t cell = true /\ occupiedAt g (cellX t cell) (cellY t cell) = false.
Proof.
  unfold blocked. rewrite existsb_false.
  split; intros H cell Hc; specialize (H cell Hc).
  - apply orb_false_iff in H. destruct H as [H1 H2].
    apply negb_false_iff in H1. auto.
  - destruct H as [H1 H2]. rewrite H1, H2. reflexivity.
Qed.

(** For a piece inside a grid of 20 rows, [collisionDetection] returns a
    boolean for each of the four directions, and it returns [false] exactly
    when every filled cell of the active shape, after the step (one column
    left or right, one row down; none for ROTATE), is a cell of
    [0,10) x [0,20) that the grid does not occupy. *)
Theorem collisionDetection_free_iff (s : State) (t : Tetromino)
    (shape : TetrominoShape) (direction : Direction) :
  currentTetromino s = Some t ->
  activeShape t = Some shape ->
  length (grid s) = 20%nat ->
  forallb (insideGrid t) (filledCells shape) = true ->
  (exists b, collisionDetection s direction = Some b) /\
  (collisionDetection s direction = Some false <->
   forall cx cy row cell,
     lookupZ shape cy = Some row -> lookupZ row cx = Some cell -> cell <> 0 ->
     let target := moveTarget direction t (cx, cy) in
     (0 <= fst target < 10 /\ 0 <= snd target < 20) /\
     occupiedAt (grid s) (fst target) (snd target) = false).
Proof.
  intros Ec Hs Hl Hin.
  rewrite (collisionDetection_existsb s t shape direction Ec Hs Hl Hin).
  split; [eauto |]. split.
  - intros H cx cy row cell H1 H2 H3 target. injection H as H.
    rewrite moveBlocked_false in H.
    destruct (H (cx, cy)) as [I O]; [apply In_filledCells; eauto |].
    split; [apply insideCell_spec; exact I | exact O].
  - intros H. f_equal. apply moveBlocked_false. intros [cx cy] Hc.
    apply In_filledCells in Hc. destruct Hc as (row & cell & H1 & H2 & H3).
    destruct (H cx cy row cell H1 H2 H3) as [I O].
    split; [apply insideCell_spec; exact I | exact O].
Qed.

Lemma collisionDetection_free_iff_witness :
  collisionDetection (initialState 0 0) DOWN = Some false.
Proof.
  destruct (collisionDetection_free_iff (initialState 0 0) O_TETROMINO
              [[1; 1]; [1; 1]] DOWN eq_refl eq_refl eq_refl eq_refl) as [[b Hb] _].
  rewrite Hb. vm_compute in Hb. injection Hb as <-. reflexivity.
Defined.

(** ** Horizontal moves *)

Lemma moveTarget_horizontal (direction : Direction) (t : Tetromino) (cell : Z * Z) :
  direction = LEFT \/ direction = RIGHT ->
  moveTarget direction t cell =
    (cellX (movedBy t (stepOf direction)) cell, cellY (movedBy t (stepOf direction)) cell).
Proof.
  intros [-> | ->]; unfold moveTarget, cellX, cellY, movedBy, stepOf; simpl;
    f_equal; lia.
Qed.

Lemma Move_apply_eq (s : State) (t : Tetromino) (shape : TetrominoShape)
    (direction : Direction) :
  direction = LEFT \/ direction = RIGHT ->
  currentTetromino s = Some t ->
  activeShape t = Some shape ->
  length (grid s) = 20%nat ->
  forallb (insideGrid t) (filledCells shape) = true ->
  Move_apply direction s =
    Some (if moveBlocked (grid s) t direction shape then s
          else withCurrent s (movedBy t (stepOf direction))).
Proof.
  intros Hd Ec Hs Hl Hin. unfold Move_apply.
  rewrite (collisionDetection_existsb s t shape direction Ec Hs Hl Hin), Ec.
  destruct (moveBlocked (grid s) t direction shape); [reflexivity |].
  destruct Hd as [-> | ->]; reflexivity.
Qed.

Lemma moved_piece_free (g : Grid) (t : Tetromino) (shape : TetrominoShape)
    (direction : Direction) :
  direction = LEFT \/ direction = RIGHT ->
  moveBlocked g t direction shape = false ->
  forallb (insideGrid (movedBy t (stepOf direction))) (filledCells shape) = true /\
  blocked g (movedBy t (stepOf direction)) shape = false.
Proof.
  intros Hd Hb. rewrite moveBlocked_false in Hb. split.
  - apply forallb_forall. intros cell Hc. destruct (Hb cell Hc) as [H1 _].
    rewrite (moveTarget_horizontal direction t cell Hd) in H1. exact H1.
  - apply blocked_false. intros cell Hc. destruct (Hb cell Hc) as [H1 H2].
    rewrite (moveTarget_horizontal direction t cell Hd) in H1, H2. auto.
Qed.

(** A horizontal move of a piece inside the grid either leaves the state as
    it is, when a filled cell would leave the grid or hit an occupied cell, or
    shifts the piece by one column and changes nothing else; the shifted piece
    is again inside the grid and stands on free cells. *)
Theorem Move_shifts_or_keeps (s : State) (t : Tetromino) (shape : TetrominoShape)
    (direction : Direction) :
  direction = LEFT \/ direction = RIGHT ->
  currentTetromino s = Some t ->
  activeShape t = Some shape ->
  length (grid s) = 20%nat ->
  forallb (insideGrid t) (filledCells shape) = true ->
  Move_apply direction s =
    Some (if moveBlocked (grid s) t direction shape then s
          else withCurrent s (movedBy t (stepOf direction))) /\
  (moveBlocked (grid s) t direction shape = false ->
   forallb (insideGrid (movedBy t (stepOf direction))) (filledCells shape) = true /\
   blocked (grid s) (movedBy t (stepOf direction)) shape = false).
Proof.
  intros Hd Ec Hs Hl Hin. split.
  - apply Move_apply_eq; assumption.
  - intros Hb. apply moved_piece_free; assumption.
Qed.

Lemma Move_shifts_or_keeps_witness :
  Move_apply LEFT (initialState 0 0) =
    Some (withCurrent (initialState 0 0) (movedBy O_TETROMINO (-1))).
Proof.
  exact (proj1 (Move_shifts_or_keeps (initialState 0 0) O_TETROMINO
                  [[1; 1]; [1; 1]] LEFT (or_introl eq_refl)
                  eq_refl eq_refl eq_refl eq_refl)).
Defined.

Lemma movedBy_back (t : Tetromino) (dx : Z) :
  movedBy (movedBy t dx) (- dx) = t.
Proof.
  destruct t as [sh [px py] col rot]. unfold movedBy. simpl.
  do 2 f_equal. lia.
Qed.

Lemma withCurrent_back (s : State) (t t' : Tetromino) :
  currentTetromino s = Some t ->
  withCurrent (withCurrent s t') t = s.
Proof.
  intros H. destruct s. simpl in H. subst. reflexivity.
Qed.

(** A free horizontal move is undone by the opposite move: for a piece inside
    the grid that stands on free cells, a move to the left that is not
    blocked, followed by a move to the right, gives the state back; and the
    same with right and left exchanged. *)
Theorem Move_there_and_back (s : State) (t : Tetromino) (shape : TetrominoShape)
    (direction back : Direction) :
  (direction = LEFT /\ back = RIGHT) \/ (direction = RIGHT /\ back = LEFT) ->
  currentTetromino s = Some t ->
  activeShape t = Some shape ->
  length (grid s) = 20%nat ->
  forallb (insideGrid t) (filledCells shape) = true ->
  blocked (grid s) t shape = false ->
  moveBlocked (grid s) t direction shape = false ->
  exists s1,
    Move_apply direction s = Some s1 /\
    s1 <> s /\
    Move_apply back s1 = Some s.
Proof.
  intros Hdir Ec Hs Hl Hin Hfree Hmove.
  assert (Hd : direction = LEFT \/ direction = RIGHT) by tauto.
  assert (Hb : back = LEFT \/ back = RIGHT) by tauto.
  assert (Hstep : stepOf back = - stepOf direction)
    by (destruct Hdir as [[-> ->] | [-> ->]]; reflexivity).
  pose proof (Move_apply_eq s t shape direction Hd Ec Hs Hl Hin) as E1.
  rewrite Hmove in E1.
  destruct (moved_piece_free (grid s) t shape direction Hd Hmove) as [Hin1 _].
  set (t1 := movedBy t (stepOf direction)) in *.
  exists (withCurrent s t1). split; [exact E1 |]. split.
  - intros Heq. assert (C : currentTetromino (withCurrent s t1) = Some t)
      by (rewrite Heq; exact Ec).
    simpl in C. injection C as C.
    assert (X : x (position t1) = x (position t)) by (rewrite C; reflexivity).
    subst t1. unfold movedBy in X. simpl in X.
    destruct Hd as [-> | ->]; simpl in X; lia.
  - pose proof (Move_apply_eq (withCurrent s t1) t1 shape back Hb
                  eq_refl Hs Hl Hin1) as E2.
    assert (Hfree2 : moveBlocked (grid s) t1 back shape = false).
    { apply moveBlocked_false. intros cell Hc.
      rewrite (moveTarget_horizontal back t1 cell Hb), Hstep.
      subst t1. rewrite movedBy_back. cbn [fst snd].
      rewrite forallb_forall in Hin. specialize (Hin cell Hc).
      split; [exact Hin |].
      apply (proj1 (blocked_false _ _ _) Hfree cell Hc). }
    cbn [grid withCurrent] in E2. rewrite Hfree2 in E2. rewrite E2.
    rewrite Hstep. subst t1. rewrite movedBy_back.
    f_equal. apply withCurrent_back. exact Ec.
Qed.

Lemma Move_there_and_back_witness :
  exists s1,
    Move_apply RIGHT (initialState 0 0) = Some s1 /\
    s1 <> initialState 0 0 /\
    Move_apply LEFT s1 = Some (initialState 0 0).
Proof.
  exact (Move_there_and_back (initialState 0 0) O_TETROMINO [[1; 1]; [1; 1]]
           RIGHT LEFT (or_intror (conj eq_refl eq_refl))
           eq_refl eq_refl eq_refl eq_refl eq_refl eq_refl).
Defined.

(** ** The pieces of a played game stay inside the grid *)

Lemma catalog_inside :
  Forall (fun t => pieceInside t = true) Tetrominos.
Proof. repeat constructor. Qed.

Lemma pieceInsideOpt_lookup (i : Z) : pieceInsideOpt (lookupZ Tetrominos i) = true.
Proof.
  destruct (lookupZ Tetrominos i) as [t |] eqn:E; [| reflexivity].
  apply lookupZ_In in E. exact (proj1 (Forall_forall _ _) catalog_inside t E).
Qed.

Lemma pieceInside_shape (t : Tetromino) :
  pieceInside t = true ->
  exists shape,
    activeShape t = Some shape /\ forallb (insideGrid t) (filledCells shape) = true.
Proof.
  unfold pieceInside. destruct (activeShape t) as [shape |]; [eauto | discriminate].
Qed.

Lemma pieceInside_intro (t : Tetromino) (shape : TetrominoShape) :
  activeShape t = Some shape ->
  forallb (insideGrid t) (filledCells shape) = true ->
  pieceInside t = true.
Proof. unfold pieceInside. intros -> H. exact H. Qed.

Lemma PieceInv_initialState (bootNow1 bootNow2 : Z) :
  PieceInv (initialState bootNow1 bootNow2).
Proof.
  constructor; simpl; try apply pieceInsideOpt_lookup. reflexivity.
Qed.

Lemma movedDown_inside (s : State) (t : Tetromino) :
  currentTetromino s = Some t ->
  pieceInside t = true ->
  collisionDetection s DOWN = Some false ->
  pieceInside (movedDown t) = true.
Proof.
  intros Ec Hin Hcol. destruct (pieceInside_shape t Hin) as (shape & Hs & Hf).
  apply (pieceInside_intro (movedDown t) shape Hs).
  rewrite (collisionDetection_filled s t shape DOWN Ec Hs) in Hcol.
  apply anyM_false in Hcol. rewrite Forall_forall in Hcol.
  rewrite forallb_forall in Hf. apply forallb_forall. intros cell Hc.
  pose proof (proj1 (insideGrid_spec t cell) (Hf cell Hc)) as B.
  pose proof (cellCollides_DOWN_false _ _ _ (Hcol cell Hc)) as F.
  apply insideGrid_spec. unfold cellX, cellY in *. cbn [movedDown position x y]. lia.
Qed.

Lemma moveTetrominoDown_PieceInv (now : Z) (s s' : State) :
  PieceInv s -> moveTetrominoDown now s = Some s' -> PieceInv s'.
Proof.
  intros [Hc Hn Hh] H. unfold moveTetrominoDown in H.
  destruct (collisionDetection s DOWN) as [collides |] eqn:Ecol; [| discriminate].
  destruct (currentTetromino s) as [cur |] eqn:Ec; [| discriminate].
  destruct collides.
  - destruct (placeTetrominoOnGrid (grid s) cur) as [placed |]; [| discriminate].
    destruct (lineClear placed) as [[newGrid cleared] |]; [| discriminate].
    destruct (topOut newGrid) as [top |]; [| discriminate].
    injection H as <-. constructor; simpl; auto. apply pieceInsideOpt_lookup.
  - injection H as <-. constructor; simpl; auto.
    apply (movedDown_inside s cur Ec Hc Ecol).
Qed.

Lemma Drop_PieceInv (fuel : nat) (now : Z) :
  forall s s', PieceInv s -> Drop_apply fuel now s = Some s' -> PieceInv s'.
Proof.
  induction fuel as [| fuel IH]; cbn [Drop_apply]; intros s s' HI H; [discriminate |].
  destruct (collisionDetection s DOWN) as [[|] |]; try discriminate.
  - eapply moveTetrominoDown_PieceInv; eauto.
  - destruct (moveTetrominoDown now s) as [s1 |] eqn:E; [| discriminate].
    eapply IH; [| exact H]. eapply moveTetrominoDown_PieceInv; eauto.
Qed.

Lemma Move_PieceInv (direction : Direction) (s s' : State) :
  direction = LEFT \/ direction = RIGHT ->
  length (grid s) = 20%nat ->
  PieceInv s -> Move_apply direction s = Some s' -> PieceInv s'.
Proof.
  intros Hd Hl HI H. destruct (currentTetromino s) as [t |] eqn:Ec.
  - destruct HI as [Hc Hn Hh]. rewrite Ec in Hc.
    destruct (pieceInside_shape t Hc) as (shape & Hs & Hf).
    rewrite (Move_apply_eq s t shape direction Hd Ec Hs Hl Hf) in H.
    destruct (moveBlocked (grid s) t direction shape) eqn:Eb.
    + injection H as <-. constructor; auto. rewrite Ec. exact Hc.
    + injection H as <-.
      destruct (moved_piece_free (grid s) t shape direction Hd Eb) as [Hin _].
      constructor; simpl; auto.
      apply (pieceInside_intro (movedBy t (stepOf direction)) shape Hs Hin).
  - unfold Move_apply in H. rewrite collisionDetection_undefined_piece in H by exact Ec.
    discriminate.
Qed.

Lemma Rotate_PieceInv (s s' : State) :
  length (grid s) = 20%nat ->
  PieceInv s -> Rotate_apply s = Some s' -> PieceInv s'.
Proof.
  intros Hl HI H. unfold Rotate_apply in H.
  destruct (currentTetromino s) as [cur |] eqn:Ec; [| discriminate].
  set (newRotation := if rotation cur + 1 <? Z.of_nat (length (shapes cur))
                      then rotation cur + 1 else 0) in *.
  fold (withRotation cur newRotation) in H.
  destruct (activeShape (withRotation cur newRotation)) as [candidate |] eqn:Hs.
  - rewrite (collisionDetection_filled (withCurrent s (withRotation cur newRotation))
               (withRotation cur newRotation) candidate ROTATE eq_refl Hs) in H.
    rewrite (anyM_existsb _
      (fun cell => negb (insideGrid (withRotation cur newRotation) cell)
                   || occupiedAt (grid s) (cellX (withRotation cur newRotation) cell)
                                          (cellY (withRotation cur newRotation) cell))) in H
      by (apply Forall_forall; intros cell _;
          apply (cellCollides_ROTATE (grid s) (withRotation cur newRotation) cell Hl)).
    fold (blocked (grid s) (withRotation cur newRotation) candidate) in H.
    destruct (blocked (grid s) (withRotation cur newRotation) candidate) eqn:Eb;
      injection H as <-; [exact HI |].
    destruct HI as [Hc Hn Hh]. constructor; simpl; auto.
    apply (pieceInside_intro _ candidate Hs).
    apply forallb_forall. intros cell Hcell.
    apply (proj1 (blocked_false _ _ _) Eb cell Hcell).
  - unfold collisionDetection in H. cbn [currentTetromino withCurrent] in H.
    unfold activeShape in Hs. rewrite Hs in H. discriminate.
Qed.

Lemma Hold_PieceInv (now : Z) (s : State) :
  PieceInv s -> PieceInv (Hold_apply now s).
Proof.
  intros HI. unfold Hold_apply. destruct (usedHold s); [exact HI |].
  destruct HI as [Hc Hn Hh].
  destruct (heldElement s) as [held |]; constructor; simpl; auto.
  apply pieceInsideOpt_lookup.
Qed.

Lemma GameFlow_PieceInv (bootNow1 bootNow2 now : Z) (s s' : State) :
  PieceInv s -> GameFlow_apply bootNow1 bootNow2 now s = Some s' -> PieceInv s'.
Proof.
  intros HI H. unfold GameFlow_apply in H. destruct (gameEnd s).
  - injection H as <-. destruct (PieceInv_initialState bootNow1 bootNow2).
    constructor; simpl; auto.
  - destruct (speedCount s >=? speedMultiplier s).
    + eapply moveTetrominoDown_PieceInv; eauto.
    + injection H as <-. destruct HI. constructor; simpl; auto.
Qed.

Lemma played_reachable (bootNow1 bootNow2 : Z) (s : State) :
  played bootNow1 bootNow2 s -> reachable bootNow1 bootNow2 s.
Proof.
  induction 1 as [| s s' action now fuel _ IH _ H].
  - apply reachable_init.
  - eapply reachable_step; eauto.
Qed.

Lemma played_PieceInv (bootNow1 bootNow2 : Z) (s : State) :
  played bootNow1 bootNow2 s -> PieceInv s.
Proof.
  induction 1 as [| s s' action now fuel Hp IH Hd H].
  - apply PieceInv_initialState.
  - pose proof (inv_dims s (reachable_Inv _ _ s (played_reachable _ _ s Hp))) as [Hl _].
    destruct action as [| | direction | | |]; simpl in H.
    + eapply GameFlow_PieceInv; eauto.
    + eapply moveTetrominoDown_PieceInv; eauto.
    + eapply (Move_PieceInv direction); eauto.
      destruct direction; try discriminate; auto.
    + eapply Rotate_PieceInv; eauto.
    + eapply Drop_PieceInv; eauto.
    + injection H as <-. apply Hold_PieceInv. exact IH.
Qed.

(** In a game played through the driver, the current piece, the next piece
    and the held piece each show a shape whose filled cells all lie inside
    [0,10) x [0,20): no action moves, rotates or swaps a piece out of the
    grid. *)
Theorem played_pieces_inside_grid (bootNow1 bootNow2 : Z) (s : State) (t : Tetromino) :
  played bootNow1 bootNow2 s ->
  currentTetromino s = Some t \/ nextTetromino s = Some t \/ heldElement s = Some t ->
  exists shape,
    activeShape t = Some shape /\
    forall cell, In cell (filledCells shape) ->
      0 <= cellX t cell < 10 /\ 0 <= cellY t cell < 20.
Proof.
  intros Hp Ht. destruct (played_PieceInv _ _ s Hp) as [Hc Hn Hh].
  assert (Hin : pieceInside t = true).
  { destruct Ht as [E | [E | E]]; rewrite E in *; assumption. }
  destruct (pieceInside_shape t Hin) as (shape & Hs & Hf).
  exists shape. split; [exact Hs |]. intros cell Hcell.
  rewrite forallb_forall in Hf. apply insideGrid_spec, Hf, Hcell.
Qed.

Lemma played_pieces_inside_grid_witness :
  exists shape,
    activeShape O_TETROMINO = Some shape /\
    forall cell, In cell (filledCells shape) ->
      0 <= cellX O_TETROMINO cell < 10 /\ 0 <= cellY O_TETROMINO cell < 20.
Proof.
  exact (played_pieces_inside_grid 0 0 (initialState 0 0) O_TETROMINO
           (played_init 0 0) (or_introl eq_refl)).
Defined.

(** ** No action of a played game throws *)

Lemma moveTetrominoDown_defined (now : Z) (s : State) (t : Tetromino)
    (shape : TetrominoShape) :
  currentTetromino s = Some t ->
  activeShape t = Some shape ->
  forallb (insideGrid t) (filledCells shape) = true ->
  gridDims (grid s) ->
  exists s', moveTetrominoDown now s = Some s'.
Proof.
  intros Ec Hs Hin Hd.
  pose proof (collisionDetection_existsb s t shape DOWN Ec Hs (proj1 Hd) Hin) as Hcol.
  destruct (moveBlocked (grid s) t DOWN shape).
  - eapply moveTetrominoDown_locks; eauto.
  - destruct (moveTetrominoDown_moves now s t Hcol Ec) as (s1 & H & _). eauto.
Qed.

Lemma Rotate_apply_eq (s : State) (t : Tetromino) (candidate : TetrominoShape) :
  currentTetromino s = Some t ->
  length (grid s) = 20%nat ->
  let newRotation :=
    if rotation t + 1 <? Z.of_nat (length (shapes t)) then rotation t + 1 else 0 in
  activeShape (withRotation t newRotation) = Some candidate ->
  Rotate_apply s =
    Some (if blocked (grid s) (withRotation t newRotation) candidate then s
          else withCurrent s (withRotation t newRotation)).
Proof.
  intros Ec Hl newRotation Hs. unfold Rotate_apply. rewrite Ec.
  fold newRotation. fold (withRotation t newRotation).
  rewrite (collisionDetection_filled (withCurrent s (withRotation t newRotation))
             (withRotation t newRotation) candidate ROTATE eq_refl Hs).
  rewrite (anyM_existsb _
    (fun cell => negb (insideGrid (withRotation t newRotation) cell)
                 || occupiedAt (grid s) (cellX (withRotation t newRotation) cell)
                                        (cellY (withRotation t newRotation) cell)))
    by (apply Forall_forall; intros cell _;
        apply (cellCollides_ROTATE (grid s) (withRotation t newRotation) cell Hl)).
  fold (blocked (grid s) (withRotation t newRotation) candidate).
  destruct (blocked (grid s) (withRotation t newRotation) candidate); reflexivity.
Qed.

(** In a game played through the driver, as long as the current piece is
    defined, every action returns a state: no grid or shape lookup of the
    reducer throws, and a hard drop needs at most 20 calls. *)
Theorem played_actions_return (bootNow1 bootNow2 : Z) (s : State) (t : Tetromino)
    (action : Action) (now : Z) :
  played bootNow1 bootNow2 s ->
  currentTetromino s = Some t ->
  driverAction action = true ->
  exists s', reduceState bootNow1 bootNow2 20 now s action = Some s'.
Proof.
  intros Hp Ec Ha.
  destruct (reachable_Inv _ _ s (played_reachable _ _ s Hp)) as [Hd _ Hc _ _ _ _ _].
  destruct (played_PieceInv _ _ s Hp) as [Hi _ _].
  rewrite Ec in Hc, Hi. cbn [catalogPieceOpt pieceInsideOpt] in Hc, Hi.
  destruct (catalogPiece_shape t Hc) as (shape & Hs & _ & Hne).
  assert (Hin : forallb (insideGrid t) (filledCells shape) = true)
    by (unfold pieceInside in Hi; rewrite Hs in Hi; exact Hi).
  destruct action as [| | direction | | |]; cbn [reduceState].
  - unfold GameFlow_apply. destruct (gameEnd s); [eauto |].
    destruct (speedCount s >=? speedMultiplier s); [| eauto].
    eapply moveTetrominoDown_defined; eauto.
  - unfold Down_apply. eapply moveTetrominoDown_defined; eauto.
  - assert (Hdir : direction = LEFT \/ direction = RIGHT)
      by (destruct direction; try discriminate; auto).
    rewrite (Move_apply_eq s t shape direction Hdir Ec Hs (proj1 Hd) Hin). eauto.
  - destruct Hc as [_ Hrot].
    set (newRotation := if rotation t + 1 <? Z.of_nat (length (shapes t))
                        then rotation t + 1 else 0).
    assert (Hb : 0 <= newRotation < Z.of_nat (length (shapes t))).
    { subst newRotation.
      destruct (Z.ltb_spec (rotation t + 1) (Z.of_nat (length (shapes t)))); lia. }
    destruct (lookupZ_defined (shapes t) newRotation Hb) as [candidate Hcand].
    rewrite (Rotate_apply_eq s t candidate Ec (proj1 Hd) Hcand). eauto.
  - destruct (filledCells shape) as [| anchor rest] eqn:Ef; [contradiction |].
    assert (Hanchor : In anchor (filledCells shape)) by (rewrite Ef; left; reflexivity).
    rewrite <- Ef in Hin.
    pose proof (proj1 (insideGrid_spec t anchor)
                  (proj1 (forallb_forall _ _) Hin anchor Hanchor)) as B.
    destruct (Drop_descent_bounded now shape anchor Hanchor 20 s t Ec Hs Hin Hd
                ltac:(lia)) as (n & pre & tpre & s' & _ & _ & _ & _ & _ & _ & Hdrop).
    eauto.
  - eauto.
Qed.

Lemma played_actions_return_witness :
  exists s', reduceState 0 0 20 0 (initialState 0 0) Rotate = Some s'.
Proof.
  exact (played_actions_return 0 0 (initialState 0 0) O_TETROMINO Rotate 0
           (played_init 0 0) eq_refl eq_refl).
Defined.

(** ** Hard drop and soft drop *)

Lemma moveTetrominoDown_lock_fields (now : Z) (s s' : State) :
  collisionDetection s DOWN = Some true ->
  moveTetrominoDown now s = Some s' ->
  currentTetromino s' = nextTetromino s /\
  heldElement s' = heldElement s /\
  usedHold s' = false /\
  speedCount s' = 0.
Proof.
  intros Hcol H. unfold moveTetrominoDown in H. rewrite Hcol in H.
  destruct (currentTetromino s) as [cur |]; [| discriminate].
  destruct (placeTetrominoOnGrid (grid s) cur) as [placed |]; [| discriminate].
  destruct (lineClear placed) as [[newGrid cleared] |]; [| discriminate].
  destruct (topOut newGrid) as [top |]; [| discriminate].
  injection H as <-. simpl. auto.
Qed.

Lemma moveTetrominoDown_move_fields (now : Z) (s s' : State) :
  collisionDetection s DOWN = Some false ->
  moveTetrominoDown now s = Some s' ->
  nextTetromino s' = nextTetromino s /\
  heldElement s' = heldElement s /\
  grid s' = grid s /\
  score s' = score s /\
  rowsCleared s' = rowsCleared s.
Proof.
  intros Hcol H. unfold moveTetrominoDown in H. rewrite Hcol in H.
  destruct (currentTetromino s) as [cur |]; [| discriminate].
  injection H as <-. simpl. auto 6.
Qed.

(** A hard drop is a run of soft drops that ends with the lock: whenever
    [Drop] returns, the same state is reached by [k] consecutive Down actions
    for some [k] between 1 and the number of calls, the piece that was next is
    now current, the held piece is the same, and [usedHold] and [speedCount]
    are reset. *)
Theorem Drop_is_repeated_Down (fuel : nat) (now : Z) :
  forall s s',
    Drop_apply fuel now s = Some s' ->
    (exists k, (1 <= k <= fuel)%nat /\ downs k now s = Some s') /\
    currentTetromino s' = nextTetromino s /\
    heldElement s' = heldElement s /\
    usedHold s' = false /\
    speedCount s' = 0.
Proof.
  induction fuel as [| fuel IH]; cbn [Drop_apply]; intros s s' H; [discriminate |].
  destruct (collisionDetection s DOWN) as [[|] |] eqn:Hcol; try discriminate.
  - split.
    + exists 1%nat. split; [lia |]. cbn [downs]. unfold Down_apply. rewrite H. reflexivity.
    + apply (moveTetrominoDown_lock_fields now s s' Hcol H).
  - destruct (moveTetrominoDown now s) as [s1 |] eqn:E; [| discriminate].
    destruct (IH s1 s' H) as ([k [Hk Hdowns]] & Hc & Hh & Hu & Hsc).
    destruct (moveTetrominoDown_move_fields now s s1 Hcol E) as (Hn & Hh1 & _).
    split.
    + exists (S k). split; [lia |]. cbn [downs]. unfold Down_apply. rewrite E. exact Hdowns.
    + rewrite <- Hn, <- Hh1. auto.
Qed.

Lemma Drop_is_repeated_Down_witness :
  exists s',
    Drop_apply 20 0 (initialState 0 0) = Some s' /\
    (exists k, (1 <= k <= 20)%nat /\ downs k 0 (initialState 0 0) = Some s') /\
    currentTetromino s' = nextTetromino (initialState 0 0).
Proof.
  destruct (Drop_apply 20 0 (initialState 0 0)) as [s' |] eqn:E;
    [| exfalso; revert E; vm_compute; discriminate].
  exists s'. split; [reflexivity |].
  destruct (Drop_is_repeated_Down 20 0 (initialState 0 0) s' E) as (Hk & Hc & _).
  split; assumption.
Defined.

(** ** Ticks *)

Lemma withSpeedCount_same (s : State) : withSpeedCount s (speedCount s) = s.
Proof. destruct s. reflexivity. Qed.

Lemma length_cons_Z {A : Type} (a : A) (l : list A) :
  Z.of_nat (length (a :: l)) = Z.of_nat (length l) + 1.
Proof. cbn [length]. lia. Qed.

Lemma GameFlow_counts (bootNow1 bootNow2 now : Z) (s : State) :
  gameEnd s = false ->
  speedCount s < speedMultiplier s ->
  GameFlow_apply bootNow1 bootNow2 now s = Some (withSpeedCount s (speedCount s + 1)).
Proof.
  intros Hg Hlt. destruct s as [cur nxt held g sc lvl hs ge sm cnt rc uh].
  cbn [gameEnd speedCount speedMultiplier] in Hg, Hlt. subst ge.
  unfold GameFlow_apply, withSpeedCount.
  cbn [currentTetromino nextTetromino heldElement grid score level highScore
       gameEnd speedMultiplier speedCount rowsCleared usedHold].
  destruct (Z.geb_spec cnt sm); [lia | reflexivity].
Qed.

Lemma GameFlow_falls (bootNow1 bootNow2 now : Z) (s : State) :
  gameEnd s = false ->
  speedMultiplier s <= speedCount s ->
  GameFlow_apply bootNow1 bootNow2 now s = moveTetrominoDown now s.
Proof.
  intros Hg Hle. unfold GameFlow_apply. rewrite Hg.
  destruct (Z.geb_spec (speedCount s) (speedMultiplier s)); [reflexivity | lia].
Qed.

Lemma ticks_count (bootNow1 bootNow2 : Z) (nows : list Z) :
  forall s,
    gameEnd s = false ->
    speedCount s + Z.of_nat (length nows) <= speedMultiplier s ->
    ticks bootNow1 bootNow2 nows s =
      Some (withSpeedCount s (speedCount s + Z.of_nat (length nows))).
Proof.
  induction nows as [| now nows IH]; intros s Hg Hle.
  - cbn [ticks length]. rewrite Z.add_0_r, withSpeedCount_same. reflexivity.
  - cbn [ticks]. rewrite length_cons_Z in Hle.
    rewrite GameFlow_counts by (auto; lia).
    rewrite IH by (auto; cbn [speedCount speedMultiplier withSpeedCount]; lia).
    unfold withSpeedCount.
    cbn [currentTetromino nextTetromino heldElement grid score level highScore
         gameEnd speedMultiplier speedCount rowsCleared usedHold].
    do 2 f_equal. rewrite length_cons_Z. lia.
Qed.

(** While the game is running, ticks only count: as long as the count stays
    at most [speedMultiplier], [n] ticks add [n] to [speedCount] and change
    nothing else. Once the count equals [speedMultiplier], the next tick is a
    down-step of the piece. *)
Theorem ticks_count_then_fall (bootNow1 bootNow2 : Z) (nows : list Z) (now : Z)
    (s : State) :
  gameEnd s = false ->
  speedCount s + Z.of_nat (length nows) <= speedMultiplier s ->
  ticks bootNow1 bootNow2 nows s =
    Some (withSpeedCount s (speedCount s + Z.of_nat (length nows))) /\
  (speedCount s + Z.of_nat (length nows) = speedMultiplier s ->
   ticks bootNow1 bootNow2 (nows ++ [now]) s =
     moveTetrominoDown now (withSpeedCount s (speedMultiplier s))).
Proof.
  intros Hg Hle. split; [apply ticks_count; assumption |].
  intros Heq. revert s Hg Hle Heq.
  induction nows as [| n nows IH]; intros s Hg Hle Heq.
  - cbn [app ticks length] in *. rewrite Z.add_0_r in Heq.
    rewrite GameFlow_falls by (auto; lia).
    rewrite <- Heq, withSpeedCount_same.
    destruct (moveTetrominoDown now s); reflexivity.
  - cbn [app ticks]. rewrite length_cons_Z in Hle, Heq.
    rewrite GameFlow_counts by (auto; lia).
    rewrite (IH (withSpeedCount s (speedCount s + 1)));
      cbn [gameEnd speedCount speedMultiplier withSpeedCount]; auto; try lia.
Qed.

Lemma ticks_count_then_fall_witness :
  ticks 0 0 [1; 2; 3] (initialState 0 0) =
    Some (withSpeedCount (initialState 0 0) 3).
Proof.
  exact (proj1 (ticks_count_then_fall 0 0 [1; 2; 3] 4 (initialState 0 0)
                  eq_refl ltac:(vm_compute; discriminate))).
Defined.

(** ** Score, rows and level *)

Lemma calculateScore_nonneg (lvl cleared : Z) :
  0 <= lvl -> 0 <= cleared <= 4 ->
  exists q, calculateScore lvl cleared = Num q /\ 0 <= q.
Proof.
  intros Hl Hc.
  assert (C : cleared = 0 \/ cleared = 1 \/ cleared = 2 \/ cleared = 3 \/ cleared = 4)
    by lia.
  destruct C as [-> | [-> | [-> | [-> | ->]]]]; eexists; (split; [reflexivity | lia]).
Qed.

Lemma noLoss_refl (s : State) :
  ScoreInv s -> noLoss s s.
Proof.
  intros [[p [Hp _]] _]. exists p, p. repeat split; auto; lia.
Qed.

Lemma moveTetrominoDown_score (now : Z) (s s' : State) :
  Inv s -> ScoreInv s -> moveTetrominoDown now s = Some s' ->
  ScoreInv s' /\ noLoss s s'.
Proof.
  intros HI [[p [Hp Hp0]] Hh] H.
  destruct HI as [Hd Hnf Hc _ _ Hr Hl _].
  unfold moveTetrominoDown in H.
  destruct (collisionDetection s DOWN) as [collides |]; [| discriminate].
  destruct (currentTetromino s) as [cur |] eqn:Ec; [| discriminate].
  destruct collides.
  - destruct (placeTetrominoOnGrid (grid s) cur) as [placed |] eqn:Ep; [| discriminate].
    destruct (catalogPiece_shape cur Hc) as (shape & Hs & Hlen & _).
    pose proof (placeTetrominoOnGrid_full_rows _ _ _ _ Hs Hnf Ep) as B.
    destruct (lineClear_dims placed (placed_dims _ _ _ Hd Ep)) as (newGrid & El & _).
    rewrite El in H.
    destruct (topOut newGrid) as [top |]; [| discriminate].
    assert (Hlvl : 0 <= level s) by (rewrite Hl; Z.div_mod_to_equations; lia).
    destruct (calculateScore_nonneg (level s) (Z.of_nat (fullRows placed)) Hlvl
                ltac:(lia)) as (q & Hq & Hq0).
    injection H as <-. split.
    + constructor; [| exact Hh].
      exists (p + q). split; [| lia].
      change (num_add (score s) (calculateScore (level s) (Z.of_nat (fullRows placed)))
              = Num (p + q)).
      rewrite Hp, Hq. reflexivity.
    + exists p, (p + q). split; [exact Hp |]. split.
      { change (num_add (score s) (calculateScore (level s) (Z.of_nat (fullRows placed)))
                = Num (p + q)).
        rewrite Hp, Hq. reflexivity. }
      split; [lia |]. split.
      { change (rowsCleared s <= rowsCleared s + Z.of_nat (fullRows placed)). lia. }
      split; [| reflexivity].
      change (level s <= 1 + (rowsCleared s + Z.of_nat (fullRows placed)) / 3).
      rewrite Hl. Z.div_mod_to_equations. lia.
  - injection H as <-. split.
    + constructor; [exists p; split; [exact Hp | exact Hp0] | exact Hh].
    + exists p, p. split; [exact Hp |]. split; [exact Hp |].
      split; [lia |]. split; [apply Z.le_refl |]. split; [apply Z.le_refl | reflexivity].
Qed.

Lemma Drop_score (fuel : nat) (now : Z) :
  forall s s',
    Inv s -> ScoreInv s -> Drop_apply fuel now s = Some s' ->
    ScoreInv s' /\ noLoss s s'.
Proof.
  induction fuel as [| fuel IH]; cbn [Drop_apply]; intros s s' HI HS H; [discriminate |].
  destruct (collisionDetection s DOWN) as [[|] |]; try discriminate.
  - eapply moveTetrominoDown_score; eauto.
  - destruct (moveTetrominoDown now s) as [s1 |] eqn:E; [| discriminate].
    destruct (moveTetrominoDown_score now s s1 HI HS E) as [HS1 N1].
    destruct (IH s1 s' (moveTetrominoDown_Inv now s s1 HI E) HS1 H) as [HS' N2].
    split; [exact HS' |].
    destruct N1 as (p & p1 & A1 & A2 & A3 & A4 & A5 & A6).
    destruct N2 as (q1 & p' & B1 & B2 & B3 & B4 & B5 & B6).
    assert (q1 = p1) by congruence. subst q1.
    exists p, p'. repeat split; auto; try lia; congruence.
Qed.

Lemma same_score_noLoss (s s' : State) :
  ScoreInv s ->
  score s' = score s -> highScore s' = highScore s ->
  rowsCleared s' = rowsCleared s -> level s' = level s ->
  ScoreInv s' /\ noLoss s s'.
Proof.
  intros [[p [Hp Hp0]] Hh] E1 E2 E3 E4. split.
  - constructor; [exists p; rewrite E1; auto | rewrite E2; exact Hh].
  - exists p, p. rewrite E1, E3, E4. repeat split; auto; lia.
Qed.

Ltac same_score s HS :=
  match goal with
  | |- ScoreInv ?x /\ _ =>
      destruct (same_score_noLoss s x HS eq_refl eq_refl eq_refl eq_refl); auto
  end.

Lemma reduceState_score (bootNow1 bootNow2 : Z) (fuel : nat) (now : Z)
    (s s' : State) (action : Action) :
  Inv s -> ScoreInv s ->
  reduceState bootNow1 bootNow2 fuel now s action = Some s' ->
  ScoreInv s' /\
  ((action = GameFlow /\ gameEnd s = true /\
    score s' = Num 0 /\
    highScore s' = greaterScore (score s) (highScore s))
   \/ noLoss s s').
Proof.
  intros HI HS H. destruct action as [| | direction | | |]; cbn [reduceState] in H.
  - unfold GameFlow_apply in H. destruct (gameEnd s) eqn:Hg.
    + injection H as <-. destruct HS as [[p [Hp Hp0]] Hh]. split.
      * constructor; cbn [score highScore initialState].
        -- exists 0. split; [reflexivity | lia].
        -- rewrite Hp. destruct (p >? highScore s); lia.
      * left. repeat split. cbn [highScore]. unfold greaterScore.
        destruct (score s) as [q |]; [| reflexivity].
        destruct (q >? highScore s) eqn:E.
        -- apply Z.gtb_lt in E. lia.
        -- rewrite Z.gtb_ltb in E. apply Z.ltb_ge in E. lia.
    + destruct (speedCount s >=? speedMultiplier s).
      * destruct (moveTetrominoDown_score now s s' HI HS H). auto.
      * injection H as <-.
        same_score s HS.
  - destruct (moveTetrominoDown_score now s s' HI HS H). auto.
  - unfold Move_apply in H.
    destruct (collisionDetection s direction) as [[|] |]; try discriminate.
    + injection H as <-. split; [exact HS | right; apply noLoss_refl; exact HS].
    + destruct (currentTetromino s); [| discriminate]. injection H as <-.
      same_score s HS.
  - unfold Rotate_apply in H.
    destruct (currentTetromino s); [| discriminate].
    destruct (collisionDetection _ ROTATE) as [[|] |]; try discriminate;
      injection H as <-.
    + split; [exact HS | right; apply noLoss_refl; exact HS].
    + same_score s HS.
  - destruct (Drop_score fuel now s s' HI HS H). auto.
  - injection H as <-. unfold Hold_apply.
    destruct (usedHold s); [split; [exact HS | right; apply noLoss_refl; exact HS] |].
    destruct (heldElement s); same_score s HS.
Qed.

Lemma reachable_ScoreInv (bootNow1 bootNow2 : Z) (s : State) :
  reachable bootNow1 bootNow2 s -> ScoreInv s.
Proof.
  induction 1 as [| s s' action now fuel Hr IH H].
  - constructor; cbn; [exists 0; split; [reflexivity | lia] | lia].
  - exact (proj1 (reduceState_score _ _ fuel now s s' action
                    (reachable_Inv _ _ s Hr) IH H)).
Qed.

(** In every reachable state the score is a number (never [NaN]) and neither
    the score nor the high score is negative. *)
Theorem score_is_a_nonnegative_number (bootNow1 bootNow2 : Z) (s : State) :
  reachable bootNow1 bootNow2 s ->
  (exists p, score s = Num p /\ 0 <= p) /\ 0 <= highScore s.
Proof.
  intros H. destruct (reachable_ScoreInv _ _ s H) as [Hs Hh]. auto.
Qed.

Lemma score_is_a_nonnegative_number_witness :
  (exists p, score (initialState 0 0) = Num p /\ 0 <= p) /\
  0 <= highScore (initialState 0 0).
Proof.
  exact (score_is_a_nonnegative_number 0 0 (initialState 0 0) (reachable_init 0 0)).
Defined.

(** Every step from a reachable state either is the reset after game over,
    which sets the score to 0 and the high score to the greater of the old
    score and the old high score, or loses nothing: score, cleared rows and
    level do not decrease and the high score is kept. The high score never
    decreases. *)
Theorem steps_never_lose_points (bootNow1 bootNow2 : Z) (fuel : nat) (now : Z)
    (s s' : State) (action : Action) :
  reachable bootNow1 bootNow2 s ->
  reduceState bootNow1 bootNow2 fuel now s action = Some s' ->
  highScore s <= highScore s' /\
  ((action = GameFlow /\ gameEnd s = true /\
    score s' = Num 0 /\
    highScore s' = greaterScore (score s) (highScore s))
   \/ noLoss s s').
Proof.
  intros Hr H.
  destruct (reduceState_score _ _ fuel now s s' action
              (reachable_Inv _ _ s Hr) (reachable_ScoreInv _ _ s Hr) H) as [_ C].
  split; [| exact C].
  destruct C as [(_ & _ & _ & Hh) | (p & p' & _ & _ & _ & _ & _ & Hh)].
  - rewrite Hh. unfold greaterScore. destruct (score s); lia.
  - lia.
Qed.

Lemma steps_never_lose_points_witness :
  exists s',
    reduceState 0 0 20 0 (initialState 0 0) Drop = Some s' /\
    highScore (initialState 0 0) <= highScore s'.
Proof.
  destruct (reduceState 0 0 20 0 (initialState 0 0) Drop) as [s' |] eqn:E;
    [| exfalso; revert E; vm_compute; discriminate].
  exists s'. split; [reflexivity |].
  exact (proj1 (steps_never_lose_points 0 0 20 0 (initialState 0 0) s' Drop
                  (reachable_init 0 0) E)).
Defined.

(** ** Game over and the top row *)

Lemma moveTetrominoDown_topOut (now : Z) (s s' : State) :
  topOut (grid s) = Some (gameEnd s) ->
  moveTetrominoDown now s = Some s' ->
  topOut (grid s') = Some (gameEnd s').
Proof.
  intros HT H. unfold moveTetrominoDown in H.
  destruct (collisionDetection s DOWN) as [collides |]; [| discriminate].
  destruct (currentTetromino s) as [cur |]; [| discriminate].
  destruct collides.
  - destruct (placeTetrominoOnGrid (grid s) cur) as [placed |]; [| discriminate].
    destruct (lineClear placed) as [[newGrid cleared] |]; [| discriminate].
    destruct (topOut newGrid) as [top |] eqn:Et; [| discriminate].
    injection H as <-. exact Et.
  - injection H as <-. exact HT.
Qed.

Lemma Drop_topOut (fuel : nat) (now : Z) :
  forall s s',
    topOut (grid s) = Some (gameEnd s) ->
    Drop_apply fuel now s = Some s' ->
    topOut (grid s') = Some (gameEnd s').
Proof.
  induction fuel as [| fuel IH]; cbn [Drop_apply]; intros s s' HT H; [discriminate |].
  destruct (collisionDetection s DOWN) as [[|] |]; try discriminate.
  - eapply moveTetrominoDown_topOut; eauto.
  - destruct (moveTetrominoDown now s) as [s1 |] eqn:E; [| discriminate].
    eapply IH; [| exact H]. eapply moveTetrominoDown_topOut; eauto.
Qed.

Lemma reduceState_topOut (bootNow1 bootNow2 : Z) (fuel : nat) (now : Z)
    (s s' : State) (action : Action) :
  topOut (grid s) = Some (gameEnd s) ->
  reduceState bootNow1 bootNow2 fuel now s action = Some s' ->
  topOut (grid s') = Some (gameEnd s').
Proof.
  intros HT H. destruct action as [| | direction | | |]; cbn [reduceState] in H.
  - unfold GameFlow_apply in H. destruct (gameEnd s) eqn:Hg.
    + injection H as <-. reflexivity.
    + destruct (speedCount s >=? speedMultiplier s).
      * eapply moveTetrominoDown_topOut; eauto. rewrite Hg. exact HT.
      * injection H as <-. exact HT.
  - eapply moveTetrominoDown_topOut; eauto.
  - unfold Move_apply in H.
    destruct (collisionDetection s direction) as [[|] |]; try discriminate.
    + injection H as <-. exact HT.
    + destruct (currentTetromino s); [| discriminate]. injection H as <-. exact HT.
  - unfold Rotate_apply in H.
    destruct (currentTetromino s); [| discriminate].
    destruct (collisionDetection _ ROTATE) as [[|] |]; try discriminate;
      injection H as <-; exact HT.
  - eapply Drop_topOut; eauto.
  - injection H as <-. unfold Hold_apply.
    destruct (usedHold s); [exact HT |]. destruct (heldElement s); exact HT.
Qed.

(** In every reachable state [gameEnd] tells whether the top row of the grid
    holds a colour: [topOut(grid)] is defined and equals [gameEnd]. *)
Theorem gameEnd_is_topOut (bootNow1 bootNow2 : Z) (s : State) :
  reachable bootNow1 bootNow2 s ->
  topOut (grid s) = Some (gameEnd s) /\
  (gameEnd s = true <->
   exists row0 tag, lookupZ (grid s) 0 = Some row0 /\ In (Some tag) row0).
Proof.
  intros H.
  assert (HT : topOut (grid s) = Some (gameEnd s)).
  { induction H as [| s s' action now fuel _ IH H].
    - reflexivity.
    - eapply reduceState_topOut; eauto. }
  split; [exact HT |].
  unfold topOut in HT. destruct (lookupZ (grid s) 0) as [row0 |]; [| discriminate].
  injection HT as HT. rewrite <- HT, existsb_exists. split.
  - intros [[tag |] [Hin Hc]]; [| discriminate]. eauto.
  - intros (row & tag & E & Hin). injection E as <-. exists (Some tag). auto.
Qed.

Lemma gameEnd_is_topOut_witness :
  topOut (grid (initialState 0 0)) = Some (gameEnd (initialState 0 0)).
Proof.
  exact (proj1 (gameEnd_is_topOut 0 0 (initialState 0 0) (reachable_init 0 0))).
Defined.

(** ** Rows and pieces of the reachable states *)

Lemma isFull_false_hole (row : list GridCell) :
  isFull row = false -> In None row.
Proof.
  unfold isFull. induction row as [| cell row IH]; simpl; [discriminate |].
  destruct cell; simpl; auto.
Qed.

(** No reachable grid keeps a completed row: every row has an empty cell. *)
Theorem reachable_rows_have_a_hole (bootNow1 bootNow2 : Z) (s : State)
    (row : list GridCell) :
  reachable bootNow1 bootNow2 s ->
  In row (grid s) ->
  isFull row = false /\ In None row.
Proof.
  intros H Hin.
  pose proof (inv_no_full_row s (reachable_Inv _ _ s H)) as F.
  rewrite Forall_forall in F. split; [auto | apply isFull_false_hole; auto].
Qed.

Lemma reachable_rows_have_a_hole_witness :
  isFull (repeat None 10) = false /\ In (@None string) (repeat None 10).
Proof.
  exact (reachable_rows_have_a_hole 0 0 (initialState 0 0) (repeat None 10)
           (reachable_init 0 0) (or_introl eq_refl)).
Defined.

Lemma catalog_four_cells :
  Forall (Forall (fun shape : TetrominoShape => length (filledCells shape) = 4%nat))
         (map shapes Tetrominos).
Proof. repeat constructor. Qed.

(** Every piece of a reachable state, current, next or held, has a rotation
    that indexes its shape table, and the shape it shows has at most 4 rows
    and exactly 4 filled cells. *)
Theorem reachable_pieces_are_tetrominoes (bootNow1 bootNow2 : Z) (s : State)
    (t : Tetromino) :
  reachable bootNow1 bootNow2 s ->
  currentTetromino s = Some t \/ nextTetromino s = Some t \/ heldElement s = Some t ->
  0 <= rotation t < Z.of_nat (length (shapes t)) /\
  exists shape,
    activeShape t = Some shape /\
    (length shape <= 4)%nat /\
    length (filledCells shape) = 4%nat.
Proof.
  intros H Ht. destruct (reachable_Inv _ _ s H) as [_ _ Hc Hn Hh _ _ _].
  assert (C : catalogPiece t).
  { destruct Ht as [E | [E | E]]; rewrite E in *; assumption. }
  split; [apply C |].
  destruct (catalogPiece_shape t C) as (shape & Hs & Hlen & _).
  exists shape. split; [exact Hs |]. split; [exact Hlen |].
  destruct C as [Hin _]. apply lookupZ_In in Hs.
  pose proof (proj1 (Forall_forall _ _) catalog_four_cells _ Hin) as F.
  exact (proj1 (Forall_forall _ _) F _ Hs).
Qed.

Lemma reachable_pieces_are_tetrominoes_witness :
  0 <= rotation O_TETROMINO < Z.of_nat (length (shapes O_TETROMINO)) /\
  exists shape,
    activeShape O_TETROMINO = Some shape /\
    (length shape <= 4)%nat /\
    length (filledCells shape) = 4%nat.
Proof.
  exact (reachable_pieces_are_tetrominoes 0 0 (initialState 0 0) O_TETROMINO
           (reachable_init 0 0) (or_introl eq_refl)).
Defined.

(** ** Line clearing, again *)

Lemma filter_all {A : Type} (f : A -> bool) (l : list A) :
  Forall (fun a => f a = true) l -> filter f l = l.
Proof.
  induction 1 as [| a l Ha _ IH]; simpl; [reflexivity |].
  rewrite Ha, IH. reflexivity.
Qed.

Lemma filter_none {A : Type} (f : A -> bool) (l : list A) :
  Forall (fun a => f a = false) l -> filter f l = [].
Proof.
  induction 1 as [| a l Ha _ IH]; simpl; [reflexivity |].
  rewrite Ha, IH. reflexivity.
Qed.

Lemma lineClear_nothing_to_clear (g : Grid) :
  g <> [] ->
  Forall (fun row => isFull row = false) g ->
  lineClear g = Some (g, 0).
Proof.
  intros Hne Hnf. destruct g as [| row0 rest]; [contradiction |].
  rewrite (lineClear_eq (row0 :: rest) row0) by reflexivity.
  unfold fullRows. rewrite (filter_none isFull) by exact Hnf.
  rewrite (filter_all (fun row => negb (isFull row))).
  - reflexivity.
  - eapply Forall_impl; [| exact Hnf]. intros row Hr. cbv beta. rewrite Hr. reflexivity.
Qed.

(** [lineClear] is idempotent on a grid whose first row has at least one
    cell: what it returns has no full row left, and clearing it again returns
    it unchanged with a count of 0. *)
Theorem lineClear_idempotent (g g' : Grid) (row0 : list GridCell) (k : Z) :
  lookupZ g 0 = Some row0 ->
  row0 <> [] ->
  lineClear g = Some (g', k) ->
  Forall (fun row => isFull row = false) g' /\
  lineClear g' = Some (g', 0).
Proof.
  intros H0 Hne H. rewrite (lineClear_eq g row0 H0) in H. injection H as <- <-.
  assert (Hnf : Forall (fun row => isFull row = false)
                  (repeat (repeat None (length row0)) (fullRows g)
                     ++ filter (fun row => negb (isFull row)) g)).
  { apply Forall_app. split.
    - apply Forall_repeat. apply isFull_empty_row.
      destruct row0; [contradiction | simpl; lia].
    - apply Forall_forall. intros row Hr. apply filter_In in Hr.
      destruct Hr as [_ Hr]. destruct (isFull row); [discriminate | reflexivity]. }
  split; [exact Hnf |].
  apply lineClear_nothing_to_clear; [| exact Hnf].
  intros E. apply (f_equal (@length _)) in E.
  rewrite length_app, repeat_length in E. unfold fullRows in E.
  rewrite filter_split_length in E.
  apply lookupZ_range in H0. simpl in E. lia.
Qed.

Lemma lineClear_idempotent_witness :
  let g : Grid := [ [Some "red"%string; Some "blue"%string]; [None; Some "cyan"%string] ] in
  let g' : Grid := [ [None; None]; [None; Some "cyan"%string] ] in
  Forall (fun row => isFull row = false) g' /\
  lineClear g' = Some (g', 0).
Proof.
  intros g g'.
  exact (lineClear_idempotent g g' [Some "red"%string; Some "blue"%string] 1
           eq_refl ltac:(discriminate) eq_refl).
Defined.

(** ** The empty grid *)

Lemma initialiseGrid_repeat (width height : Z) :
  initialiseGrid width height = repeat (repeat None (Z.to_nat width)) (Z.to_nat height).
Proof.
  unfold initialiseGrid. induction (Z.to_nat height) as [| n IH]; simpl; [reflexivity |].
  rewrite IH. reflexivity.
Qed.

Lemma existsb_repeat_None (n : nat) :
  existsb (fun cell : GridCell => match cell with Some _ => true | None => false end)
          (repeat None n) = false.
Proof. induction n; simpl; auto. Qed.

(** For positive sizes, [initialiseGrid(width, height)] has [height] rows of
    [width] empty cells each; it is not topped out and [lineClear] returns it
    unchanged with a count of 0. *)
Theorem initialiseGrid_is_empty (width height : Z) :
  0 < width -> 0 < height ->
  let g := initialiseGrid width height in
  Z.of_nat (length g) = height /\
  Forall (fun row => Z.of_nat (length row) = width /\ Forall (fun cell => cell = None) row) g /\
  topOut g = Some false /\
  lineClear g = Some (g, 0).
Proof.
  intros Hw Hh g. subst g. rewrite initialiseGrid_repeat.
  destruct (Z.to_nat height) as [| n] eqn:En; [lia |].
  split; [rewrite repeat_length; lia |]. split; [| split].
  - apply Forall_repeat. split; [rewrite repeat_length; lia |].
    apply Forall_repeat. reflexivity.
  - cbn [repeat]. unfold topOut. cbn [lookupZ Z.ltb Z.compare Z.to_nat nth_error].
    rewrite existsb_repeat_None. reflexivity.
  - apply lineClear_nothing_to_clear; [discriminate |].
    apply Forall_repeat. apply isFull_empty_row. lia.
Qed.

Lemma initialiseGrid_is_empty_witness :
  topOut (initialiseGrid 3 2) = Some false /\
  lineClear (initialiseGrid 3 2) = Some (initialiseGrid 3 2, 0).
Proof.
  destruct (initialiseGrid_is_empty 3 2 ltac:(lia) ltac:(lia)) as (_ & _ & Ht & Hl).
  split; assumption.
Defined.

(** ** Placement, cell by cell *)

Lemma map_from_nth {A B : Type} (f : A -> Z -> option B) (l : list A) :
  forall (i : Z) (l' : list B) (j : nat) (a : A),
    map_from f i l = Some l' ->
    nth_error l j = Some a ->
    exists b, nth_error l' j = Some b /\ f a (i + Z.of_nat j) = Some b.
Proof.
  induction l as [| a0 l IH]; intros i l' j a H Hj.
  - destruct j; discriminate.
  - cbn [map_from] in H.
    destruct (f a0 i) as [b0 |] eqn:E0; [| discriminate].
    destruct (map_from f (i + 1) l) as [bs |] eqn:El; [| discriminate].
    injection H as <-. destruct j as [| j].
    + injection Hj as <-. exists b0. split; [reflexivity |].
      rewrite Z.add_0_r. exact E0.
    + cbn [nth_error] in *. destruct (IH (i + 1) bs j a El Hj) as (b & Hb & Hf).
      exists b. split; [exact Hb |]. rewrite <- Hf. f_equal. lia.
Qed.

Lemma map_i_lookup {A B : Type} (f : A -> Z -> option B) (l : list A) (l' : list B)
    (j : Z) (a : A) :
  map_i f l = Some l' ->
  lookupZ l j = Some a ->
  exists b, lookupZ l' j = Some b /\ f a j = Some b.
Proof.
  intros H Hj. apply lookupZ_Some in Hj. destruct Hj as [H0 Hj].
  destruct (map_from_nth f l 0 l' (Z.to_nat j) a H Hj) as (b & Hb & Hf).
  exists b. split; [apply lookupZ_Some; auto |].
  rewrite <- Hf. f_equal. lia.
Qed.

(** [placeTetrominoOnGrid] keeps the size of the grid and of every row, and
    changes a cell only by writing the colour of the piece into it: no cell is
    emptied. A cell under a shape cell equal to 1 (inside the width of the
    first shape row) gets the colour; a cell that is not under a shape cell
    equal to 1 is copied. *)
Theorem placeTetrominoOnGrid_cells (g placed : Grid) (t : Tetromino)
    (shape : TetrominoShape) (r c : Z) (row : list GridCell) (cell : GridCell) :
  activeShape t = Some shape ->
  placeTetrominoOnGrid g t = Some placed ->
  lookupZ g r = Some row ->
  lookupZ row c = Some cell ->
  length placed = length g /\
  exists row' cell',
    lookupZ placed r = Some row' /\
    length row' = length row /\
    lookupZ row' c = Some cell' /\
    (cell' = cell \/ cell' = Some (color t)) /\
    (cell <> None -> cell' <> None) /\
    (forall shapeRow row0,
       lookupZ shape (r - y (position t)) = Some shapeRow ->
       lookupZ shapeRow (c - x (position t)) = Some 1 ->
       lookupZ shape 0 = Some row0 ->
       c - x (position t) < Z.of_nat (length row0) ->
       cell' = Some (color t)) /\
    ((forall shapeRow,
        lookupZ shape (r - y (position t)) = Some shapeRow ->
        lookupZ shapeRow (c - x (position t)) <> Some 1) ->
     cell' = cell).
Proof.
  intros Hs Hp Hr Hc. unfold placeTetrominoOnGrid in Hp.
  split; [apply (map_from_length _ _ _ _ Hp) |].
  destruct (map_i_lookup _ g placed r row Hp Hr) as (row' & Hr' & Hrow).
  destruct (map_i_lookup _ row row' c cell Hrow Hc) as (cell' & Hc' & Hcell).
  exists row', cell'. split; [exact Hr' |].
  split; [apply (map_from_length _ _ _ _ Hrow) |]. split; [exact Hc' |].
  unfold placeCell, activeShape in *. rewrite Hs in Hcell.
  set (relY := r - y (position t)) in *. set (relX := c - x (position t)) in *.
  assert (Keep : Some cell = Some cell' ->
                 (cell' = cell \/ cell' = Some (color t)) /\
                 (cell <> None -> cell' <> None) /\
                 ((forall shapeRow,
                     lookupZ shape relY = Some shapeRow ->
                     lookupZ shapeRow relX <> Some 1) ->
                  cell' = cell)).
  { intros E. injection E as <-. auto. }
  destruct (Z.geb_spec relY 0) as [Y0 | Y0].
  - destruct (Z.ltb_spec relY (Z.of_nat (length shape))) as [Y1 | Y1].
    + destruct (Z.geb_spec relX 0) as [X0 | X0].
      * destruct (lookupZ shape 0) as [row0 |] eqn:E0; [| discriminate].
        destruct (Z.ltb_spec relX (Z.of_nat (length row0))) as [X1 | X1].
        -- destruct (lookupZ shape relY) as [shapeRow |] eqn:Ey; [| discriminate].
           destruct (lookupZ shapeRow relX) as [v |] eqn:Ex.
           ++ destruct (Z.eqb_spec v 1) as [-> | Hv].
              ** injection Hcell as <-. split; [auto |]. split; [discriminate |].
                 split; [reflexivity |].
                 intros Hno. exfalso. apply (Hno shapeRow eq_refl Ex).
              ** destruct (Keep Hcell) as (K1 & K2 & K3).
                 repeat split; auto.
                 intros sr r0 Hsr Hone _ _. injection Hsr as <-. congruence.
           ++ destruct (Keep Hcell) as (K1 & K2 & K3).
              repeat split; auto.
              intros sr r0 Hsr Hone _ _. injection Hsr as <-. congruence.
        -- destruct (Keep Hcell) as (K1 & K2 & K3).
           repeat split; auto.
           intros sr r0 _ _ Hr0 Hlt. injection Hr0 as <-. lia.
      * destruct (Keep Hcell) as (K1 & K2 & K3).
        repeat split; auto.
        intros sr r0 _ Hone _ _. apply lookupZ_range in Hone. lia.
    + destruct (Keep Hcell) as (K1 & K2 & K3).
      repeat split; auto.
      intros sr r0 Hsr _ _ _. apply lookupZ_range in Hsr. lia.
  - destruct (Keep Hcell) as (K1 & K2 & K3).
    repeat split; auto.
    intros sr r0 Hsr _ _ _. apply lookupZ_range in Hsr. lia.
Qed.

Lemma placeTetrominoOnGrid_cells_witness :
  exists placed row' cell',
    placeTetrominoOnGrid (initialiseGrid 10 20) O_TETROMINO = Some placed /\
    lookupZ placed 1 = Some row' /\
    lookupZ row' 5 = Some cell' /\
    cell' = Some "yellow"%string.
Proof.
  destruct (placeTetrominoOnGrid (initialiseGrid 10 20) O_TETROMINO)
    as [placed |] eqn:Ep; [| exfalso; revert Ep; vm_compute; discriminate].
  destruct (placeTetrominoOnGrid_cells (initialiseGrid 10 20) placed O_TETROMINO
              [[1; 1]; [1; 1]] 1 5 (repeat None 10) None eq_refl Ep eq_refl eq_refl)
    as (_ & row' & cell' & Hr & _ & Hc & _ & _ & Hone & _).
  exists placed, row', cell'. split; [reflexivity |]. split; [exact Hr |].
  split; [exact Hc |].
  exact (Hone [1; 1] [1; 1] eq_refl eq_refl eq_refl ltac:(vm_compute; reflexivity)).
Defined.

(** ** The generator on a clock reading *)

Lemma catalog_start :
  Forall (fun t => position t = startPosition /\ rotation t = 0) Tetrominos.
Proof. repeat constructor. Qed.

(** For a clock reading [0 <= now < 2^53], [hash(now)] is an integer of
    [0 .. 2^31 - 2]. As long as [a * now + c] is below [2^53] (up to
    [now = 8162278]) it is the residue of [a * now + c] modulo [2^31]; from
    there on the sum is rounded and the hash is even. The draw
    [Tetrominos[randomInt(0, Tetrominos.length - 1)]] is a piece of the
    catalog at the start position with rotation 0. *)
Theorem randomInt_on_clock (now : Z) :
  0 <= now < 2 ^ 53 ->
  (exists h : Z,
     (RNG.hash (inject_Z now) == inject_Z h)%Q /\
     0 <= h < 2147483647 /\
     (1103515245 * now + 12345 < 2 ^ 53 ->
      h = (1103515245 * now + 12345) mod 2147483648) /\
     (2 ^ 53 <= 1103515245 * now + 12345 -> Z.even h = true)) /\
  exists t,
    lookupZ Tetrominos (RNG.randomInt now 0 (Z.of_nat (length Tetrominos) - 1)) = Some t /\
    In t Tetrominos /\
    position t = startPosition /\
    rotation t = 0.
Proof.
  intros Hn.
  destruct (hash_on_clock now Hn) as (h & Eh & Hh & Hsmall & Hbig).
  split; [exists h; repeat split; solve [assumption | lia | tauto] |].
  assert (B : 0 <= RNG.randomInt now 0 (Z.of_nat (length Tetrominos) - 1)
                <= Z.of_nat (length Tetrominos) - 1).
  { rewrite randomInt_scaleHash.
    apply (scaleHash_in_range _ h 0 (Z.of_nat (length Tetrominos) - 1) Eh Hh);
      simpl; lia. }
  destruct (lookupZ_defined Tetrominos
              (RNG.randomInt now 0 (Z.of_nat (length Tetrominos) - 1))) as [t Ht];
    [lia |].
  exists t. split; [exact Ht |].
  pose proof (lookupZ_In _ _ _ Ht) as Hin. split; [exact Hin |].
  exact (proj1 (Forall_forall _ _) catalog_start t Hin).
Qed.

Lemma randomInt_on_clock_witness :
  exists t,
    lookupZ Tetrominos (RNG.randomInt 1700000000000 0 (Z.of_nat (length Tetrominos) - 1))
      = Some t /\
    In t Tetrominos.
Proof.
  destruct (randomInt_on_clock 1700000000000 ltac:(lia)) as (_ & t & Ht & Hin & _).
  exists t. split; [exact Ht | exact Hin].
Defined.

(** ** Hold does not look at the grid *)

Lemma run_played (bootNow1 bootNow2 : Z) (fuel : nat) (script : list (Action * Z)) :
  forallb (fun step => driverAction (fst step)) script = true ->
  forall s s',
    played bootNow1 bootNow2 s ->
    run bootNow1 bootNow2 fuel script s = Some s' ->
    played bootNow1 bootNow2 s'.
Proof.
  induction script as [| [action now] script IH]; cbn [run forallb fst];
    intros Hd s s' Hp H.
  - injection H as <-. exact Hp.
  - apply andb_true_iff in Hd. destruct Hd as [Ha Hd].
    destruct (reduceState bootNow1 bootNow2 fuel now s action) as [s1 |] eqn:E;
      [| discriminate].
    eapply (IH Hd); [| exact H]. eapply played_step; eauto.
Qed.

(** Hold makes no collision check and a held piece keeps the position it had:
    a game played through the driver can reach a state whose current piece,
    back from the hold, lies on an occupied grid cell. *)
Theorem Hold_can_overlap_the_stack :
  exists s t shape cell,
    run 0 0 20 holdOverlapScript (initialState 0 0) = Some s /\
    played 0 0 s /\
    currentTetromino s = Some t /\
    activeShape t = Some shape /\
    In cell (filledCells shape) /\
    occupiedAt (grid s) (cellX t cell) (cellY t cell) = true.
Proof.
  destruct (run 0 0 20 holdOverlapScript (initialState 0 0)) as [s |] eqn:E;
    [| exfalso; revert E; vm_compute; discriminate].
  assert (F : option_map
                (fun st => (currentTetromino st,
                            occupiedAt (grid st) 4 18))
                (run 0 0 20 holdOverlapScript (initialState 0 0))
              = Some (Some (mkTetromino (shapes O_TETROMINO) (mkPosition 4 17)
                              "yellow"%string 0), true))
    by (vm_compute; reflexivity).
  rewrite E in F. cbn [option_map] in F. injection F as Hc Ho.
  exists s, (mkTetromino (shapes O_TETROMINO) (mkPosition 4 17) "yellow"%string 0),
         [[1; 1]; [1; 1]], (0, 1).
  split; [reflexivity |]. split.
  - eapply (run_played 0 0 20 holdOverlapScript); [reflexivity | apply played_init | exact E].
  - split; [exact Hc |]. split; [reflexivity |]. split; [simpl; auto |]. exact Ho.
Qed.

Lemma Drop_empty_shape_diverges_witness :
  Drop_apply 50 0
    (withCurrent (initialState 0 0)
       (mkTetromino [[[0; 0]; [0; 0]]] startPosition "yellow"%string 0)) = None.
Proof.
  exact (Drop_empty_shape_diverges 0 50
           (withCurrent (initialState 0 0)
              (mkTetromino [[[0; 0]; [0; 0]]] startPosition "yellow"%string 0))
           (mkTetromino [[[0; 0]; [0; 0]]] startPosition "yellow"%string 0)
           [[0; 0]; [0; 0]] eq_refl eq_refl eq_refl).
Defined.
